(** * The SSH deployment manager: routing assignments and manager state

    A shallow embedding of the manager of package [impl] and of the proxy
    of package [proxy], with the properties of the routing algorithm and
    of the manager's RPC handlers.  The definitions come first, the
    lemmas and theorems after them. *)

From Stdlib Require Import ZArith Lia.
From stdpp Require Import base option list strings pretty gmap sorting.

Open Scope Z_scope.

(** ** Machine integers *)

(** Go's [uint64] is a [Z] in [0, 2^64); arithmetic wraps around. *)
Definition MaxUint64 : Z := 2 ^ 64 - 1.
Definition wrap64 (z : Z) : Z := z mod 2 ^ 64.

(** [float64(x)] for a [uint64] [x]: the nearest number with a 53-bit
    significand, ties to even.  The value of the result is always an
    integer, so it is kept as a [Z]. *)
Definition float64_of_uint64 (x : Z) : Z :=
  let e := Z.log2 x - 52 in
  if e <=? 0 then x
  else
    let q := Z.shiftr x e in
    let r := Z.land x (Z.ones e) in
    let half := Z.shiftl 1 (e - 1) in
    let q' :=
      if r <? half then q
      else if half <? r then q + 1
      else if Z.even q then q else q + 1 in
    Z.shiftl q' e.

(** ** Protocol messages (package [protos]) *)

Module Assignment_Slice.
Record t := mk { Start : Z; Replicas : list string }.
End Assignment_Slice.

Module Assignment.
Record t := mk {
  App : string;
  DeploymentId : string;
  Component : string;
  Version : Z;
  Slices : list Assignment_Slice.t }.

Definition set_Version (v : Z) (a : t) : t :=
  mk (App a) (DeploymentId a) (Component a) v (Slices a).
Definition set_Slices (s : list Assignment_Slice.t) (a : t) : t :=
  mk (App a) (DeploymentId a) (Component a) (Version a) s.
End Assignment.

Module RoutingInfo.
Record t := mk {
  Version : string;
  Replicas : list string;
  Assignments : list Assignment.t }.

Definition set_Version (v : string) (r : t) : t :=
  mk v (Replicas r) (Assignments r).
End RoutingInfo.

#[global] Instance Assignment_Slice_eq_dec : EqDecision Assignment_Slice.t.
Proof. solve_decision. Defined.
#[global] Instance Assignment_eq_dec : EqDecision Assignment.t.
Proof. solve_decision. Defined.
#[global] Instance RoutingInfo_eq_dec : EqDecision RoutingInfo.t.
Proof. solve_decision. Defined.

(** ** The routing algorithm *)

(** [sort.Strings]: increasing byte-wise lexicographic order. *)
Definition sort_Strings (l : list string) : list string :=
  merge_sort String.le l.

(** [nextPowerOfTwo].  [math.Log2], [math.Ceil] and [math.Pow] are taken at
    their real-number values: the exponent is [Z.log2_up x].  The float64
    evaluation agrees with it on every [x] below [2^31], the range the
    theorems below are stated for. *)
Definition nextPowerOfTwo (x : Z) : Z :=
  if Z.land x (x - 1) =? 0 then x
  else 2 ^ Z.log2_up x.

(** [curr[0] + uint64(math.Floor(0.5*float64(curr[1]-curr[0])))].  Halving
    a float64 is exact, the floor of the half of an integer [f] is
    [f / 2], and the result (at most [2^63]) converts back exactly. *)
Definition midPoint (curr : Z * Z) : Z :=
  wrap64 (curr.1 + float64_of_uint64 (wrap64 (curr.2 - curr.1)) / 2).

(** One iteration of the splitting loop: pop the first range, push its
    two halves at the back.  [None] is the index panic on [splits[0]]. *)
Definition split_step (splits : list (Z * Z)) : option (list (Z * Z)) :=
  match splits with
  | [] => None
  | curr :: splits =>
      let m := midPoint curr in
      Some (splits ++ [(curr.1, m); (m, curr.2)])
  end.

(** [for ok := true; ok; ok = len(splits) != numSlices { ... }]: the body
    runs once before the condition is first tested.  [None] when the fuel
    runs out. *)
Fixpoint split_loop (fuel : nat) (numSlices : Z) (splits : list (Z * Z))
  : option (list (Z * Z)) :=
  match fuel with
  | O => None
  | S fuel =>
      splits' ← split_step splits;
      if Z.of_nat (length splits') =? numSlices then Some splits'
      else split_loop fuel numSlices splits'
  end.

(** [sort.Slice(splits, func(i, j) { return splits[i][0] <= splits[j][0] })] *)
Definition le_start (a b : Z * Z) : Prop := a.1 <= b.1.
#[global] Instance le_start_dec : RelDecision le_start.
Proof. intros a b. unfold le_start. apply _. Defined.
Definition sort_splits (splits : list (Z * Z)) : list (Z * Z) :=
  merge_sort le_start splits.

(** The round-robin loop; [None] is the index panic on [candidates[rId]]. *)
Fixpoint assign_slices (candidates : list string) (rId : nat)
    (splits : list (Z * Z)) : option (list Assignment_Slice.t) :=
  match splits with
  | [] => Some []
  | s :: splits =>
      r ← candidates !! rId;
      slices ← assign_slices candidates ((rId + 1) `mod` length candidates)%nat splits;
      Some (Assignment_Slice.mk s.1 [r] :: slices)
  end.

(** [routingAlgo].  The clone of [currAssignment] is the value itself.  The
    result is [None] when the Go function would not return normally (a
    panic, or the splitting loop still running after [numSlices]
    iterations); the returned [error] is [nil] on every path of the source
    and is left out.  [sort.Strings] sorts the caller's slice in place:
    callers see [sort_Strings candidates] afterwards. *)
Definition routingAlgo (currAssignment : Assignment.t) (candidates : list string)
  : option Assignment.t :=
  let newAssignment :=
    Assignment.set_Version (wrap64 (Assignment.Version currAssignment + 1))
      currAssignment in
  let candidates := sort_Strings candidates in
  if decide (length candidates = 0%nat) then
    Some (Assignment.set_Slices [] newAssignment)
  else if decide (length candidates = 1%nat) then
    Some (Assignment.set_Slices [Assignment_Slice.mk 0 candidates] newAssignment)
  else
    let numSlices := nextPowerOfTwo (Z.of_nat (length candidates)) in
    splits ← split_loop (Z.to_nat numSlices) numSlices [(0, MaxUint64)];
    slices ← assign_slices candidates 0 (sort_splits splits);
    Some (Assignment.set_Slices slices newAssignment).

(** ** The splitting loop, iteration by iteration *)

Definition halves (curr : Z * Z) : list (Z * Z) :=
  [(curr.1, midPoint curr); (midPoint curr, curr.2)].

Definition split_all (splits : list (Z * Z)) : list (Z * Z) :=
  splits ≫= halves.

(** [steps n] is [n] iterations of the loop body. *)
Fixpoint steps (n : nat) (splits : list (Z * Z)) : option (list (Z * Z)) :=
  match n with
  | O => Some splits
  | S n => splits' ← split_step splits; steps n splits'
  end.

(** The bisection levels: level [k] holds the [2^k] ranges of depth [k]. *)
Fixpoint level (k : nat) : list (Z * Z) :=
  match k with
  | O => [(0, MaxUint64)]
  | S k => split_all (level k)
  end.

(** ** Contiguous chains of ranges *)

(** [chain lo hi l]: the ranges of [l] are non-empty, the first starts at
    [lo], each ends where the next starts, and the last ends at [hi]. *)
Fixpoint chain (lo hi : Z) (l : list (Z * Z)) : Prop :=
  match l with
  | [] => lo = hi
  | c :: l => c.1 = lo ∧ c.1 < c.2 ∧ chain c.2 hi l
  end.

(** The ranges of bisection depth [64 - j] are [2^j] or [2^j - 1] wide. *)
Definition width_in (j : Z) (c : Z * Z) : Prop :=
  0 <= c.1 ∧ c.2 <= MaxUint64 ∧ (c.2 - c.1 = 2 ^ j ∨ c.2 - c.1 = 2 ^ j - 1).

Definition half_ok (j w : Z) : bool :=
  let h := float64_of_uint64 w / 2 in
  ((h =? 2 ^ (j - 1)) || (h =? 2 ^ (j - 1) - 1)) &&
  ((w - h =? 2 ^ (j - 1)) || (w - h =? 2 ^ (j - 1) - 1)).

(** ** The assignment with its version incremented *)

Definition bumped (cur : Assignment.t) : Assignment.t :=
  Assignment.set_Version (wrap64 (Assignment.Version cur + 1)) cur.

(** ** Key ranges of the slices *)

Definition starts (a : Assignment.t) : list Z :=
  Assignment_Slice.Start <$> Assignment.Slices a.

(** A slice owns the keys from its start key up to the start key of the
    next slice; the last slice runs to the end of the key space. *)
Fixpoint slice_ranges (starts : list Z) : list (Z * Z) :=
  match starts with
  | [] => []
  | s :: rest => (s, default (2 ^ 64) (head rest)) :: slice_ranges rest
  end.

Definition owns (r : Z * Z) (key : Z) : Prop := r.1 <= key < r.2.

(** [math.MaxInt32]: the bound on the number of candidates under which
    [nextPowerOfTwo] is modelled. *)
Definition MaxInt32 : Z := 2 ^ 31 - 1.

Definition a0 : Assignment.t := Assignment.mk "app" "dep" "c" 0 [].

(** * The manager *)

(** ** Errors and results *)

Module error.
(** A Go [error]: its message, and whether
    [errors.Is(err, syscall.EADDRINUSE)] holds of it. *)
Record t := mk { Error : string; is_EADDRINUSE : bool }.

(** [fmt.Errorf(prefix + "%w" + suffix, err)]: the wrapped error is still
    found by [errors.Is]. *)
Definition wrap (prefix : string) (err : t) (suffix : string) : t :=
  mk (prefix +:+ Error err +:+ suffix) (is_EADDRINUSE err).

Definition Canceled : t := mk "context canceled" false.
End error.

(** How a call ends: with a value and a [nil] error, with an error, waiting
    in a long-poll read that nothing has woken yet, or in a run-time
    panic. *)
Inductive result (A : Type) : Type :=
  | Ok (a : A)
  | Err (err : error.t)
  | Blocked
  | Panic.
Arguments Ok {A} a.
Arguments Err {A} err.
Arguments Blocked {A}.
Arguments Panic {A}.

(** ** The versioned store (package [versioned_map]) *)

Module versioned_map.
(** Modelled from the spec: package [versioned_map] is not among the
    sources.  Section 4.1 of the specification: every write bumps a
    monotonic version counter per key; [Read] returns the current value
    and its version at once if the version given is empty or differs
    from the current one, and otherwise blocks until a newer version is
    written or the context is cancelled, which surfaces as a
    cancellation error; a key never written reads as a [nil] value and
    no error.  Values are stored by value (the manager's comments say
    that the map stores empty maps as nil maps).  A version is passed
    around as the decimal string of the counter, 0 for a key never
    written. *)
Record entry (T : Type) := Entry { value : T; counter : N }.
Arguments Entry {T} value counter.
Arguments value {T} e.
Arguments counter {T} e.

(** Modelled from the spec: the version counter of a key, 0 before the
    first write. *)
Definition counter_of {T} (e : option (entry T)) : N :=
  from_option counter 0%N e.

(** Modelled from the spec: the version as handed to the callers of
    [Read]. *)
Definition version_of {T} (e : option (entry T)) : string :=
  pretty (counter_of e).

(** Modelled from the spec: how a call of [Read] ends; [Waiting] is a
    reader still blocked. *)
Inductive read (T : Type) : Type :=
  | Value (v : option T) (version : string)
  | Failed (err : error.t)
  | Waiting.
Arguments Value {T} v version.
Arguments Failed {T} err.
Arguments Waiting {T}.

(** Modelled from the spec: [Read(ctx, key, version)] of package
    [versioned_map], absent from the sources (section 4.1). *)
Definition Read {T} (ctx_done : bool) (m : gmap string (entry T))
    (key version : string) : read T :=
  let current := version_of (m !! key) in
  if decide (version = "" ∨ version ≠ current)
  then Value (value <$> m !! key) current
  else if ctx_done then Failed error.Canceled else Waiting.

(** Modelled from the spec: [Update(key, value)] of package
    [versioned_map], absent from the sources (section 4.1): it stores the
    value and bumps the version of the key. *)
Definition Update {T} (key : string) (v : T) (m : gmap string (entry T))
  : gmap string (entry T) :=
  <[key := Entry v (N.succ (counter_of (m !! key)))]> m.
End versioned_map.

(** ** Messages and state records

    The declarations of these messages are not among the sources; the
    records keep the fields that the manager reads or writes. *)

Module Listener.
Record t := mk { Name : string; Addr : string }.
End Listener.

Module ColocationGroup.
Record t := mk { Name : string }.
End ColocationGroup.

Module ReplicaToRegister.
Record t := mk { Group : string; Address : string; Pid : Z }.
End ReplicaToRegister.

Module ExportListenerRequest.
Record t := mk { Listener : Listener.t; LocalAddress : string }.
End ExportListenerRequest.

Module ExportListenerReply.
Record t := mk { ProxyAddress : string; Error : string }.
End ExportListenerReply.

Module ComponentToStart.
Record t := mk { ColocationGroup : string; Component : string; IsRouted : bool }.
End ComponentToStart.

Module GetRoutingInfo.
Record t := mk { Group : string; Version : string }.
End GetRoutingInfo.

Module ColocationGroupState.
Record t := mk {
  Name : string;
  Components : gmap string bool;
  Replicas : list string;
  ReplicaPids : list Z;
  Assignments : gmap string Assignment.t }.

Definition set_Components f (g : t) : t :=
  mk (Name g) (f (Components g)) (Replicas g) (ReplicaPids g) (Assignments g).
Definition set_Replicas f (g : t) : t :=
  mk (Name g) (Components g) (f (Replicas g)) (ReplicaPids g) (Assignments g).
Definition set_ReplicaPids f (g : t) : t :=
  mk (Name g) (Components g) (Replicas g) (f (ReplicaPids g)) (Assignments g).
Definition set_Assignments f (g : t) : t :=
  mk (Name g) (Components g) (Replicas g) (ReplicaPids g) (f (Assignments g)).
End ColocationGroupState.

Module AppVersionState.
Record t := mk {
  App : string;
  DeploymentId : string;
  SubmissionTime : Z;
  Listeners : list Listener.t;
  Groups : gmap string ColocationGroupState.t }.

Definition set_Listeners f (s : t) : t :=
  mk (App s) (DeploymentId s) (SubmissionTime s) (f (Listeners s)) (Groups s).
Definition set_Groups f (s : t) : t :=
  mk (App s) (DeploymentId s) (SubmissionTime s) (Listeners s) (f (Groups s)).
End AppVersionState.

(** ** The proxy (package [proxy]) *)

Module Proxy.
Record t := mk { backends : list string }.
Definition NewProxy : t := mk [].
Definition AddBackend (backend : string) (p : t) : t :=
  mk (backends p ++ [backend]).
End Proxy.

Module proxyInfo.
Record t := mk { proxy : Proxy.t; addr : string }.
End proxyInfo.

(** ** The world outside the manager

    What the operating system and the Go runtime answer: the clock, the
    outcome of [net.Listen] on an address (the address bound, or an
    error), the outcome of starting the ssh command of a babysitter for a
    location, a group and a replica id ([proto.ToEnv] and [cmd.Start]
    together), [path.Join], and the order in which a [range] visits the
    entries of a map, which Go leaves unspecified. *)
Record Env := {
  now : Z;
  net_Listen : string → string + error.t;
  cmd_Start : string → string → nat → option error.t;
  path_Join : string → string → string;
  range_order : list (string * Assignment.t) → list (string * Assignment.t);
  range_order_perm : ∀ l, range_order l ≡ₚ l }.

(** ** The manager's state *)

Module manager.
(** The fields of [manager] that the handlers below read or write; [m.ctx]
    is kept as whether it has been cancelled.  [babysitters] is not a
    field of the source: it records every call of [startBabysitter], as
    location, group and replica id, in order. *)
Record t := mk {
  ctx_done : bool;
  dep_App_Name : string;
  dep_Id : string;
  locations : list string;
  started : gmap string bool;
  appState : gmap string (versioned_map.entry AppVersionState.t);
  routingState : gmap string (versioned_map.entry RoutingInfo.t);
  proxies : gmap string proxyInfo.t;
  babysitters : list (string * string * nat) }.

Definition set_started f (m : t) : t :=
  mk (ctx_done m) (dep_App_Name m) (dep_Id m) (locations m) (f (started m))
     (appState m) (routingState m) (proxies m) (babysitters m).
Definition set_appState f (m : t) : t :=
  mk (ctx_done m) (dep_App_Name m) (dep_Id m) (locations m) (started m)
     (f (appState m)) (routingState m) (proxies m) (babysitters m).
Definition set_routingState f (m : t) : t :=
  mk (ctx_done m) (dep_App_Name m) (dep_Id m) (locations m) (started m)
     (appState m) (f (routingState m)) (proxies m) (babysitters m).
Definition set_proxies f (m : t) : t :=
  mk (ctx_done m) (dep_App_Name m) (dep_Id m) (locations m) (started m)
     (appState m) (routingState m) (f (proxies m)) (babysitters m).
Definition set_babysitters f (m : t) : t :=
  mk (ctx_done m) (dep_App_Name m) (dep_Id m) (locations m) (started m)
     (appState m) (routingState m) (proxies m) (f (babysitters m)).
End manager.

Definition routingInfoKey : string := "routing_entries".
Definition appVersionStateKey : string := "app_version_state".

(** The manager that [RunManager] creates. *)
Definition RunManager (ctx_done : bool) (app id : string) (locations : list string)
  : manager.t :=
  manager.mk ctx_done app id locations ∅ ∅ ∅ ∅ [].

(** ** The handlers *)

Section handlers.
Context (env : Env).

Definition routingKey (group : string) : string :=
  path_Join env routingInfoKey group.

(** [loadAppState].  A nil [Groups] map and an empty one are the same
    [gmap]. *)
Definition loadAppState (m : manager.t) (version : string)
  : result (AppVersionState.t * string) :=
  match versioned_map.Read (manager.ctx_done m) (manager.appState m)
          appVersionStateKey version with
  | versioned_map.Failed err => Err err
  | versioned_map.Waiting => Blocked
  | versioned_map.Value state newVersion =>
      let state :=
        default (AppVersionState.mk (manager.dep_App_Name m) (manager.dep_Id m)
                   (now env) [] ∅) state in
      Ok (state, newVersion)
  end.

(** [findOrAddGroup] returns a pointer into [state.Groups]: the group is
    returned together with the state that holds it, and [put_group]
    writes back what a handler changes through the pointer. *)
Definition findOrAddGroup (state : AppVersionState.t) (group : string)
  : AppVersionState.t * ColocationGroupState.t :=
  match AppVersionState.Groups state !! group with
  | Some g => (state, g)
  | None =>
      let g := ColocationGroupState.mk group ∅ [] [] ∅ in
      (AppVersionState.set_Groups (insert group g) state, g)
  end.

Definition put_group (group : string) (g : ColocationGroupState.t)
    (state : AppVersionState.t) : AppVersionState.t :=
  AppVersionState.set_Groups (insert group g) state.

Definition loadRoutingState (m : manager.t) (group version : string)
  : result (option RoutingInfo.t * string) :=
  match versioned_map.Read (manager.ctx_done m) (manager.routingState m)
          (routingKey group) version with
  | versioned_map.Failed err => Err err
  | versioned_map.Waiting => Blocked
  | versioned_map.Value state newVersion =>
      let state :=
        match state with
        | None => Some (RoutingInfo.mk "" [] [])
        | Some _ => state
        end in
      Ok (state, newVersion)
  end.

(** [gproto.Equal]: two messages are equal when all their fields are;
    a nil pointer equals no message. *)
Definition gproto_Equal (x : option RoutingInfo.t) (y : RoutingInfo.t) : bool :=
  bool_decide (x = Some y).

Definition updateRoutingInfo (m : manager.t) (g : ColocationGroupState.t)
    (info : RoutingInfo.t) : manager.t * result unit :=
  match loadRoutingState m (ColocationGroupState.Name g) "" with
  | Err err => (m, Err err)
  | Blocked => (m, Blocked)
  | Panic => (m, Panic)
  | Ok (state, _) =>
      if gproto_Equal state info then (m, Ok ())
      else
        (manager.set_routingState
           (versioned_map.Update (routingKey (ColocationGroupState.Name g)) info) m,
         Ok ())
  end.

(** The first loop of [mayGenerateNewRoutingInfo]: every assignment of
    the group is replaced by the result of [routingAlgo] on it.  An
    iteration changes the entry of its own key only, so the order of the
    [range] does not matter.  [routingAlgo] returns neither an error nor
    a nil assignment, so the [continue] of the source is never taken;
    [None] is a call of [routingAlgo] that does not return. *)
Definition recompute (replicas : list string)
    (assignments : gmap string Assignment.t) : option (gmap string Assignment.t) :=
  if decide (map_Forall (λ _ a, is_Some (routingAlgo a replicas)) assignments)
  then Some ((λ a, default a (routingAlgo a replicas)) <$> assignments)
  else None.

(** [mayGenerateNewRoutingInfo] changes the group through its pointer:
    the group comes back with the result.  [routingAlgo] has already
    sorted [g.Replicas] in place when the group has an assignment;
    [sort.Strings(g.Replicas)] sorts it in every case.  The second loop
    lists the assignments in the order of the [range]. *)
Definition mayGenerateNewRoutingInfo (m : manager.t) (g : ColocationGroupState.t)
  : manager.t * ColocationGroupState.t * result unit :=
  match recompute (ColocationGroupState.Replicas g)
          (ColocationGroupState.Assignments g) with
  | None => (m, g, Panic)
  | Some assignments =>
      let g := ColocationGroupState.set_Assignments (λ _, assignments) g in
      let g := ColocationGroupState.set_Replicas sort_Strings g in
      let routingInfo :=
        RoutingInfo.mk "" (ColocationGroupState.Replicas g)
          ((range_order env (map_to_list (ColocationGroupState.Assignments g))).*2) in
      let '(m, r) := updateRoutingInfo m g routingInfo in
      (m, g, r)
  end.

(** The membership loop of [registerReplica]. *)
Definition found_replica (address : string) (replicas : list string) : bool :=
  existsb (λ replica, bool_decide (address = replica)) replicas.

Definition registerReplica (m : manager.t) (req : ReplicaToRegister.t)
  : manager.t * result unit :=
  match loadAppState m "" with
  | Err err => (m, Err err)
  | Blocked => (m, Blocked)
  | Panic => (m, Panic)
  | Ok (state, _) =>
      let '(state, g) := findOrAddGroup state (ReplicaToRegister.Group req) in
      let g :=
        if found_replica (ReplicaToRegister.Address req)
             (ColocationGroupState.Replicas g)
        then g
        else
          ColocationGroupState.set_ReplicaPids (λ l, l ++ [ReplicaToRegister.Pid req])
            (ColocationGroupState.set_Replicas
               (λ l, l ++ [ReplicaToRegister.Address req]) g) in
      match mayGenerateNewRoutingInfo m g with
      | (m, g, Ok _) =>
          let state := put_group (ReplicaToRegister.Group req) g state in
          (manager.set_appState
             (versioned_map.Update appVersionStateKey state) m, Ok ())
      | (m, _, Err err) => (m, Err err)
      | (m, _, Blocked) => (m, Blocked)
      | (m, _, Panic) => (m, Panic)
      end
  end.

Definition exportListener (m : manager.t) (req : ExportListenerRequest.t)
  : manager.t * result ExportListenerReply.t :=
  match loadAppState m "" with
  | Err err => (m, Err err)
  | Blocked => (m, Blocked)
  | Panic => (m, Panic)
  | Ok (state, _) =>
      let listener := ExportListenerRequest.Listener req in
      let state := AppVersionState.set_Listeners (λ l, l ++ [listener]) state in
      let m := manager.set_appState
                 (versioned_map.Update appVersionStateKey state) m in
      match manager.proxies m !! Listener.Name listener with
      | Some p =>
          let p' := proxyInfo.mk
                      (Proxy.AddBackend (Listener.Addr listener) (proxyInfo.proxy p))
                      (proxyInfo.addr p) in
          (manager.set_proxies (insert (Listener.Name listener) p') m,
           Ok (ExportListenerReply.mk (proxyInfo.addr p) ""))
      | None =>
          match net_Listen env (ExportListenerRequest.LocalAddress req) with
          | inr err =>
              if error.is_EADDRINUSE err
              then (m, Ok (ExportListenerReply.mk "" (error.Error err)))
              else (m, Err (error.wrap "proxy listen: " err ""))
          | inl addr =>
              let proxy := Proxy.AddBackend (Listener.Addr listener) Proxy.NewProxy in
              (manager.set_proxies
                 (insert (Listener.Name listener) (proxyInfo.mk proxy addr)) m,
               Ok (ExportListenerReply.mk addr ""))
          end
      end
  end.

Definition startBabysitter (loc : string) (group : ColocationGroup.t)
    (replicaId : nat) : option error.t :=
  cmd_Start env loc (ColocationGroup.Name group) replicaId.

(** The loop of [startColocationGroup] over [m.locations], from replica id
    [replicaId] on; it stops at the first error. *)
Fixpoint start_locations (m : manager.t) (group : ColocationGroup.t)
    (replicaId : nat) (locs : list string) : manager.t * option error.t :=
  match locs with
  | [] => (m, None)
  | loc :: locs =>
      let m := manager.set_babysitters
                 (λ l, l ++ [(loc, ColocationGroup.Name group, replicaId)]) m in
      match startBabysitter loc group replicaId with
      | Some err =>
          (m, Some (error.wrap
                      ("unable to start babysitter for group "
                         +:+ ColocationGroup.Name group
                         +:+ " at location " +:+ loc +:+ ": ")
                      err (String (Ascii.ascii_of_nat 10) "")))
      | None => start_locations m group (S replicaId) locs
      end
  end.

Definition startColocationGroup (m : manager.t) (group : ColocationGroup.t)
  : manager.t * result unit :=
  if decide (is_Some (manager.started m !! ColocationGroup.Name group))
  then (m, Ok ())
  else
    match start_locations m group 0 (manager.locations m) with
    | (m, Some err) => (m, Err err)
    | (m, None) =>
        (manager.set_started (insert (ColocationGroup.Name group) true) m, Ok ())
    end.

Definition startComponent (m : manager.t) (req : ComponentToStart.t)
  : manager.t * result unit :=
  match loadAppState m "" with
  | Err err => (m, Err err)
  | Blocked => (m, Blocked)
  | Panic => (m, Panic)
  | Ok (state, _) =>
      let group := ComponentToStart.ColocationGroup req in
      let component := ComponentToStart.Component req in
      let '(state, g) := findOrAddGroup state group in
      let g := ColocationGroupState.set_Components
                 (insert component (ComponentToStart.IsRouted req)) g in
      let g :=
        if ComponentToStart.IsRouted req then
          match ColocationGroupState.Assignments g !! component with
          | Some _ => g
          | None =>
              ColocationGroupState.set_Assignments
                (insert component
                   (Assignment.mk (manager.dep_App_Name m) (manager.dep_Id m)
                      component 0 [])) g
          end
        else g in
      match mayGenerateNewRoutingInfo m g with
      | (m, g, Ok _) =>
          let state := put_group group g state in
          let m := manager.set_appState
                     (versioned_map.Update appVersionStateKey state) m in
          startColocationGroup m (ColocationGroup.mk group)
      | (m, _, Err err) => (m, Err err)
      | (m, _, Blocked) => (m, Blocked)
      | (m, _, Panic) => (m, Panic)
      end
  end.

(** [getRoutingInfo]; [Ok None] would be a nil message with a nil error.
    Writing the version through a nil pointer would panic. *)
Definition getRoutingInfo (m : manager.t) (req : GetRoutingInfo.t)
  : result (option RoutingInfo.t) :=
  match loadRoutingState m (GetRoutingInfo.Group req) (GetRoutingInfo.Version req) with
  | Err err => Err err
  | Blocked => Blocked
  | Panic => Panic
  | Ok (existing, newVersion) =>
      let existing :=
        match existing with
        | None => Some (RoutingInfo.mk "" [] [])
        | Some _ => existing
        end in
      match existing with
      | None => Panic
      | Some existing => Ok (Some (RoutingInfo.set_Version newVersion existing))
      end
  end.
End handlers.

(** The states the manager goes through: from the one [RunManager] creates,
    by the handlers that write to the manager.  ([run] calls
    [startComponent] and [startColocationGroup] itself; the remaining
    handlers write to the logs, traces and metrics only.) *)
Inductive step : manager.t → manager.t → Prop :=
  | step_registerReplica env m req :
      step m (registerReplica env m req).1
  | step_exportListener env m req :
      step m (exportListener env m req).1
  | step_startComponent env m req :
      step m (startComponent env m req).1
  | step_startColocationGroup env m group :
      step m (startColocationGroup env m group).1.

Definition reachable (m : manager.t) : Prop :=
  ∃ ctx_done app id locations,
    rtc step (RunManager ctx_done app id locations) m.

(** The state of a group in the stored application state. *)
Definition stored_group (m : manager.t) (group : string)
  : option ColocationGroupState.t :=
  e ← manager.appState m !! appVersionStateKey;
  AppVersionState.Groups (versioned_map.value e) !! group.

(** ** Sample worlds, managers and requests *)

Definition id_env (listen : string → string + error.t)
    (start : string → string → nat → option error.t) : Env :=
  Build_Env 0 listen start (λ d f, d +:+ "/" +:+ f) (λ l, l)
    (λ l, reflexivity l).

Definition env0 : Env := id_env (λ a, inl a) (λ _ _ _, None).
Definition m0 : manager.t := RunManager false "app" "dep" ["l0"; "l1"].

Definition in_use : error.t :=
  error.mk "listen tcp :80: bind: address already in use" true.
Definition denied : error.t :=
  error.mk "listen tcp :80: bind: permission denied" false.
Definition export_L : ExportListenerRequest.t :=
  ExportListenerRequest.mk (Listener.mk "L" "worker1") ":80".

(** ** The babysitters that [startColocationGroup] starts *)

Definition launches (group : ColocationGroup.t) (replicaId : nat)
    (locs : list string) : list (string * string * nat) :=
  imap (λ i loc, (loc, ColocationGroup.Name group, (replicaId + i)%nat)) locs.

Definition launch_error (group : ColocationGroup.t) (loc : string)
    (err : error.t) : error.t :=
  error.wrap
    ("unable to start babysitter for group " +:+ ColocationGroup.Name group
       +:+ " at location " +:+ loc +:+ ": ")
    err (String (Ascii.ascii_of_nat 10) "").

Definition no_route : error.t := error.mk "ssh: no route to host" false.

(** The world in which the babysitter of location "l0" fails to start. *)
Definition env_l0_down : Env :=
  id_env (λ a, inl a)
    (λ loc _ _, if bool_decide (loc = "l0") then Some no_route else None).

(** ** The effect of [mayGenerateNewRoutingInfo] *)

(** The routing information stored for a group; the empty one if its key
    was never written. *)
Definition stored_routing (env : Env) (m : manager.t) (group : string)
  : RoutingInfo.t :=
  default (RoutingInfo.mk "" [] [])
    (versioned_map.value <$> manager.routingState m !! routingKey env group).

(** The group after [mayGenerateNewRoutingInfo], and the routing
    information built from it. *)
Definition recomputed (g : ColocationGroupState.t) : ColocationGroupState.t :=
  ColocationGroupState.set_Replicas sort_Strings
    (ColocationGroupState.set_Assignments
       (fmap (λ a, default a (routingAlgo a (ColocationGroupState.Replicas g)))) g).

Definition routing_info (env : Env) (g : ColocationGroupState.t) : RoutingInfo.t :=
  RoutingInfo.mk "" (ColocationGroupState.Replicas g)
    ((range_order env (map_to_list (ColocationGroupState.Assignments g))).*2).

(** ** The steps of [registerReplica] *)

Definition empty_group (group : string) : ColocationGroupState.t :=
  ColocationGroupState.mk group ∅ [] [] ∅.

(** The group that a handler gets from [findOrAddGroup]. *)
Definition current_group (m : manager.t) (group : string) : ColocationGroupState.t :=
  default (empty_group group) (stored_group m group).

(** The group after the append step of [registerReplica]. *)
Definition registered (req : ReplicaToRegister.t) (g : ColocationGroupState.t)
  : ColocationGroupState.t :=
  if found_replica (ReplicaToRegister.Address req) (ColocationGroupState.Replicas g)
  then g
  else
    ColocationGroupState.set_ReplicaPids (λ l, l ++ [ReplicaToRegister.Pid req])
      (ColocationGroupState.set_Replicas
         (λ l, l ++ [ReplicaToRegister.Address req]) g).

(** ** The replica lists of the stored groups *)

(** What holds of every stored group: as many pids as replicas, and the
    replicas in sorted order. *)
Definition group_ok (g : ColocationGroupState.t) : Prop :=
  length (ColocationGroupState.Replicas g) = length (ColocationGroupState.ReplicaPids g) ∧
  sort_Strings (ColocationGroupState.Replicas g) = ColocationGroupState.Replicas g.

Definition groups_ok (m : manager.t) : Prop :=
  ∀ group g, stored_group m group = Some g → group_ok g.

Definition register_b : ReplicaToRegister.t := ReplicaToRegister.mk "g" "b" 1.
Definition register_a : ReplicaToRegister.t := ReplicaToRegister.mk "g" "a" 2.

(** The manager after the replicas "b" (pid 1) and then "a" (pid 2) of
    group "g" have registered. *)
Definition m_ba : manager.t :=
  (registerReplica env0 (registerReplica env0 m0 register_b).1 register_a).1.

(** ** Versions of the assignments *)

Definition versions_sum (l : list Assignment.t) : Z :=
  foldr (λ a s, Assignment.Version a + s) 0 l.

(** The manager after the routed component "c" of group "g" has been
    started and the replica "a" has registered, and after "a" has
    registered once more. *)
Definition m_c_a : manager.t :=
  (registerReplica env0
     (startComponent env0 m0 (ComponentToStart.mk "g" "c" true)).1
     (ReplicaToRegister.mk "g" "a" 1)).1.
Definition m_c_a_a : manager.t :=
  (registerReplica env0 m_c_a (ReplicaToRegister.mk "g" "a" 1)).1.

(** * Further parts of the manager and of the proxy *)

(** ** Routing requests through a proxy *)

Module URL.
Record t := mk { Scheme : string; Host : string }.
End URL.

(** [director] of the proxy, on the URL of the request.  [rand.Intn(n)]
    returns some number below [n]: the draw is [k mod n] for a [k] that the
    caller of the model chooses.  With no backend the request is left as
    it is (the source logs an error).  [None] is the index panic on
    [p.backends]. *)
Definition director (k : nat) (p : Proxy.t) (url : URL.t) : option URL.t :=
  if decide (length (Proxy.backends p) = 0%nat) then Some url
  else
    host ← Proxy.backends p !! (k `mod` length (Proxy.backends p))%nat;
    Some (URL.mk "http" host).

(** ** [getComponentsToStart] *)

Module GetComponentsToStart.
Record t := mk { Group : string; Version : string }.
End GetComponentsToStart.

Module ComponentsToStart.
Record t := mk { Version : string; Components : list string }.
End ComponentsToStart.

(** The order in which [maps.Keys] lists the keys of a map, which Go leaves
    unspecified. *)
Record KeyOrder := {
  keys_order : list string → list string;
  keys_order_perm : ∀ l, keys_order l ≡ₚ l }.

(** [getComponentsToStart].  The group that [findOrAddGroup] adds to the
    state read from the store is not written back. *)
Definition getComponentsToStart (env : Env) (order : KeyOrder) (m : manager.t)
    (req : GetComponentsToStart.t) : result ComponentsToStart.t :=
  match loadAppState env m (GetComponentsToStart.Version req) with
  | Err err => Err err
  | Blocked => Blocked
  | Panic => Panic
  | Ok (state, newVersion) =>
      let '(_, g) := findOrAddGroup state (GetComponentsToStart.Group req) in
      Ok (ComponentsToStart.mk newVersion
            (keys_order order (map_to_list (ColocationGroupState.Components g)).*1))
  end.

Definition sorted_keys : KeyOrder :=
  Build_KeyOrder (λ l, l) (λ l, reflexivity l).

(** ** Readings of the manager's state *)

(** The listeners recorded in the stored application state. *)
Definition stored_listeners (m : manager.t) : list Listener.t :=
  from_option (λ e, AppVersionState.Listeners (versioned_map.value e)) []
    (manager.appState m !! appVersionStateKey).

(** The version that a reader of the routing information of a group, or
    of the application state, is given. *)
Definition routing_version (env : Env) (m : manager.t) (group : string) : string :=
  versioned_map.version_of (manager.routingState m !! routingKey env group).

Definition app_version (m : manager.t) : string :=
  versioned_map.version_of (manager.appState m !! appVersionStateKey).

(** What holds of every stored group besides [group_ok]: it is stored
    under its own name, and no replica is listed twice. *)
Definition group_wf (group : string) (g : ColocationGroupState.t) : Prop :=
  ColocationGroupState.Name g = group ∧ NoDup (ColocationGroupState.Replicas g).

Definition groups_wf (m : manager.t) : Prop :=
  ∀ group g, stored_group m group = Some g → group_wf group g.

(** The assignments of a group are those that [routingAlgo] computes for
    its replicas. *)
Definition assignments_current (g : ColocationGroupState.t) : Prop :=
  ∀ component a cur new,
    ColocationGroupState.Assignments g !! component = Some a →
    routingAlgo cur (ColocationGroupState.Replicas g) = Some new →
    Assignment.Slices new = Assignment.Slices a.

(** Stored groups are well formed and their assignments are current. *)
Definition groups_current (m : manager.t) : Prop :=
  ∀ group g, stored_group m group = Some g → group_wf group g ∧ assignments_current g.

(** Every proxy has a backend, and its backends are addresses of recorded
    listeners of its name. *)
Definition proxies_ok (m : manager.t) : Prop :=
  ∀ name p, manager.proxies m !! name = Some p →
    Proxy.backends (proxyInfo.proxy p) ≠ [] ∧
    ∀ backend, backend ∈ Proxy.backends (proxyInfo.proxy p) →
               Listener.mk name backend ∈ stored_listeners m.

(** The part of the manager that placement and proxying work on. *)
Definition control_state (m : manager.t)
  : list string * gmap string bool * gmap string proxyInfo.t
    * list (string * string * nat) :=
  (manager.locations m, manager.started m, manager.proxies m, manager.babysitters m).

(** The group after [startComponent] has recorded the component and, for
    a routed component without one, its initial assignment. *)
Definition component_added (m : manager.t) (req : ComponentToStart.t)
    (g : ColocationGroupState.t) : ColocationGroupState.t :=
  let component := ComponentToStart.Component req in
  let g := ColocationGroupState.set_Components
             (insert component (ComponentToStart.IsRouted req)) g in
  if ComponentToStart.IsRouted req then
    match ColocationGroupState.Assignments g !! component with
    | Some _ => g
    | None =>
        ColocationGroupState.set_Assignments
          (insert component
             (Assignment.mk (manager.dep_App_Name m) (manager.dep_Id m)
                component 0 [])) g
    end
  else g.

(** The manager after the recomputation for a group and the write of the
    application state. *)
Definition committed (env : Env) (m : manager.t) (group : string)
    (g : ColocationGroupState.t) (state : AppVersionState.t) : manager.t :=
  manager.set_appState
    (versioned_map.Update appVersionStateKey (put_group group (recomputed g) state))
    (updateRoutingInfo env m (recomputed g) (routing_info env (recomputed g))).1.

(** The manager after the listener "L" has been exported. *)
Definition m_L : manager.t := (exportListener env0 m0 export_L).1.

(** The assignment that [startComponent] creates for a routed component. *)
Definition initial_assignment (m : manager.t) (component : string) : Assignment.t :=
  Assignment.mk (manager.dep_App_Name m) (manager.dep_Id m) component 0 [].

(** * Properties of the routing algorithm *)

(** ** [nextPowerOfTwo] *)

Lemma land_pred_pow2 (x : Z) :
  0 < x → Z.land x (x - 1) = 0 → x = 2 ^ Z.log2 x.
Proof.
  intros Hx Hland.
  destruct (Z.log2_spec x Hx) as [Hlo Hhi].
  destruct (decide (x = 2 ^ Z.log2 x)) as [|Hne]; [done|exfalso].
  assert (Hk : 0 <= Z.log2 x) by apply Z.log2_nonneg.
  assert (Hlog : Z.log2 (x - 1) = Z.log2 x).
  { apply Z.log2_unique; [done|]. replace (Z.succ (Z.log2 x)) with (Z.log2 x + 1) in * by lia. lia. }
  assert (Hb1 : Z.testbit x (Z.log2 x) = true) by (apply Z.bit_log2; lia).
  assert (Hb2 : Z.testbit (x - 1) (Z.log2 x) = true).
  { rewrite <- Hlog. apply Z.bit_log2. lia. }
  assert (Hb : Z.testbit (Z.land x (x - 1)) (Z.log2 x) = true).
  { by rewrite Z.land_spec, Hb1, Hb2. }
  rewrite Hland, Z.bits_0 in Hb. done.
Qed.

Lemma nextPowerOfTwo_log2_up (x : Z) :
  1 <= x → nextPowerOfTwo x = 2 ^ Z.log2_up x.
Proof.
  intros Hx. unfold nextPowerOfTwo.
  destruct (Z.eqb_spec (Z.land x (x - 1)) 0) as [Hland|]; [|done].
  apply land_pred_pow2 in Hland; [|lia].
  rewrite Hland at 2. rewrite Z.log2_up_pow2 by apply Z.log2_nonneg. done.
Qed.

Lemma nextPowerOfTwo_least (x : Z) :
  1 <= x →
  x <= nextPowerOfTwo x ∧
  ∀ k, 0 <= k → x <= 2 ^ k → nextPowerOfTwo x <= 2 ^ k.
Proof.
  intros Hx. rewrite nextPowerOfTwo_log2_up by done. split.
  - apply Z.log2_up_le_pow2; lia.
  - intros k Hk Hle. apply Z.pow_le_mono_r; [lia|].
    apply Z.log2_up_le_pow2; lia.
Qed.

(** ** The splitting loop *)

Lemma steps_add (n m : nat) splits :
  steps (n + m) splits = steps n splits ≫= steps m.
Proof.
  revert splits. induction n as [|n IH]; intros splits; simpl; [done|].
  destruct (split_step splits) as [splits'|]; simpl; [apply IH|done].
Qed.

Lemma steps_queue (front back : list (Z * Z)) :
  steps (length front) (front ++ back) = Some (back ++ split_all front).
Proof.
  revert back. induction front as [|curr front IH]; intros back; simpl.
  - by rewrite app_nil_r.
  - change (steps (length front) ((front ++ back) ++ halves curr)
            = Some (back ++ split_all (curr :: front))).
    rewrite <- app_assoc, IH. unfold split_all.
    by rewrite bind_cons, <- app_assoc.
Qed.

Lemma length_split_all splits :
  length (split_all splits) = (2 * length splits)%nat.
Proof.
  unfold split_all. induction splits as [|c l IH]; [done|].
  rewrite bind_cons, length_app, IH. simpl. lia.
Qed.

Lemma length_level (k : nat) : length (level k) = (2 ^ k)%nat.
Proof.
  induction k as [|k IH]; [done|].
  cbn [level]. rewrite length_split_all, IH. simpl. lia.
Qed.

Lemma steps_level (k : nat) :
  steps (2 ^ k - 1) [(0, MaxUint64)] = Some (level k).
Proof.
  induction k as [|k IH]; [done|].
  assert (Hpos : (1 <= 2 ^ k)%nat).
  { clear. induction k; simpl; lia. }
  replace (2 ^ S k - 1)%nat with ((2 ^ k - 1) + 2 ^ k)%nat by (simpl; lia).
  rewrite steps_add, IH.
  pose proof (steps_queue (level k) []) as Hq.
  rewrite length_level, app_nil_r in Hq. exact Hq.
Qed.

Lemma split_step_length splits splits' :
  split_step splits = Some splits' → length splits' = S (length splits).
Proof.
  destruct splits as [|c l]; intros [= <-].
  rewrite length_app. simpl. lia.
Qed.

Lemma split_loop_steps (fuel n : nat) (numSlices : Z) splits :
  (1 <= n <= fuel)%nat → splits ≠ [] →
  Z.of_nat (length splits + n) = numSlices →
  split_loop fuel numSlices splits = steps n splits.
Proof.
  revert n splits. induction fuel as [|fuel IH]; intros n splits Hn Hne Hlen; [lia|].
  destruct n as [|n]; [lia|]. simpl.
  destruct (split_step splits) as [splits'|] eqn:Hstep; [|done]. simpl.
  pose proof (split_step_length _ _ Hstep) as Hl.
  destruct (Z.eqb_spec (Z.of_nat (length splits')) numSlices) as [Heq|Hneq].
  - assert (n = 0%nat) as -> by lia. done.
  - apply IH; [lia| |lia]. by destruct splits'.
Qed.

(** With [numSlices = 2^k], [k >= 1], the loop ends on level [k], and any
    fuel of at least [2^k - 1] iterations gives the same result. *)
Lemma split_loop_level (fuel k : nat) :
  (1 <= k)%nat → (2 ^ k - 1 <= fuel)%nat →
  split_loop fuel (2 ^ Z.of_nat k) [(0, MaxUint64)] = Some (level k).
Proof.
  intros Hk Hfuel.
  assert (Hpow : (2 <= 2 ^ k)%nat).
  { destruct k as [|k]; [lia|]. simpl.
    assert (1 <= 2 ^ k)%nat by (clear; induction k; simpl; lia). lia. }
  rewrite <- steps_level. apply split_loop_steps; [lia|done|].
  replace (2 ^ Z.of_nat k) with (Z.of_nat (2 ^ k)) by (by rewrite Nat2Z.inj_pow).
  cbn [length]. lia.
Qed.

(** ** Contiguous chains of ranges *)

Lemma half_ok_table :
  forallb (λ j : nat, half_ok (Z.of_nat j) (2 ^ Z.of_nat j) &&
                      half_ok (Z.of_nat j) (2 ^ Z.of_nat j - 1)) (seq 2 62)
  && half_ok 64 (2 ^ 64 - 1) = true.
Proof. vm_compute. reflexivity. Qed.

Lemma half_ok_width (j w : Z) :
  2 <= j <= 64 → w <= MaxUint64 → w = 2 ^ j ∨ w = 2 ^ j - 1 →
  half_ok j w = true.
Proof.
  intros Hj Hw Hcases.
  pose proof half_ok_table as Ht.
  apply andb_prop in Ht as [Ht H64].
  destruct (decide (j = 64)) as [->|Hne].
  - destruct Hcases as [->| ->]; [|exact H64].
    unfold MaxUint64 in Hw. lia.
  - rewrite forallb_forall in Ht.
    assert (Hin : In (Z.to_nat j) (seq 2 62)) by (apply in_seq; lia).
    apply Ht in Hin. rewrite Z2Nat.id in Hin by lia.
    apply andb_prop in Hin as [H1 H2].
    by destruct Hcases as [->| ->].
Qed.

Lemma midPoint_width (j : Z) (c : Z * Z) :
  2 <= j <= 64 → c.1 < c.2 → width_in j c →
  c.1 < midPoint c < c.2 ∧
  width_in (j - 1) (c.1, midPoint c) ∧ width_in (j - 1) (midPoint c, c.2).
Proof.
  intros Hj Hlt (Hlo & Hhi & Hw).
  assert (Hp : 2 <= 2 ^ (j - 1)).
  { change 2 with (2 ^ 1) at 1. apply Z.pow_le_mono_r; lia. }
  unfold midPoint, wrap64.
  assert (Hsmall : 0 <= c.2 - c.1 < 2 ^ 64) by (unfold MaxUint64 in Hhi; lia).
  rewrite (Z.mod_small (c.2 - c.1)) by done.
  pose proof (half_ok_width j (c.2 - c.1) Hj ltac:(unfold MaxUint64 in *; lia) Hw) as Hok.
  unfold half_ok in Hok.
  set (h := float64_of_uint64 (c.2 - c.1) / 2) in *.
  apply andb_prop in Hok as [Hl Hr].
  apply orb_prop in Hl. apply orb_prop in Hr.
  rewrite !Z.eqb_eq in Hl, Hr.
  rewrite Z.mod_small by (unfold MaxUint64 in Hhi; lia).
  unfold width_in, MaxUint64 in *. simpl. lia.
Qed.

Lemma chain_split_all (j lo hi : Z) (l : list (Z * Z)) :
  2 <= j <= 64 → chain lo hi l → Forall (width_in j) l →
  chain lo hi (split_all l) ∧ Forall (width_in (j - 1)) (split_all l).
Proof.
  intros Hj. revert lo. induction l as [|c l IH]; intros lo Hc Hw.
  - done.
  - destruct Hc as (Hlo & Hlt & Hc). apply Forall_cons in Hw as [Hwc Hw].
    destruct (IH _ Hc Hw) as [IHc IHw].
    destruct (midPoint_width j c Hj Hlt Hwc) as (Hm & Hw1 & Hw2).
    unfold split_all. rewrite bind_cons. split.
    + simpl. repeat split; try done; lia.
    + apply Forall_app. split; [|done]. unfold halves.
      apply Forall_cons. split; [done|]. by apply Forall_singleton.
Qed.

Lemma level_chain (k : nat) :
  (k <= 63)%nat →
  chain 0 MaxUint64 (level k) ∧ Forall (width_in (64 - Z.of_nat k)) (level k).
Proof.
  induction k as [|k IH]; intros Hk.
  - simpl. unfold width_in, MaxUint64. simpl. repeat split; try done.
    repeat constructor; simpl; lia.
  - destruct IH as [Hc Hw]; [lia|].
    replace (64 - Z.of_nat (S k)) with (64 - Z.of_nat k - 1) by lia.
    apply chain_split_all; [lia|done..].
Qed.

Lemma chain_bounds lo hi l :
  chain lo hi l → lo <= hi ∧ ∀ c, c ∈ l → lo <= c.1 ∧ c.1 < c.2 ∧ c.2 <= hi.
Proof.
  revert lo. induction l as [|c l IH]; simpl; intros lo.
  - intros ->. split; [lia|]. by intros c ?%elem_of_nil.
  - intros (<- & Hlt & Hc). destruct (IH _ Hc) as [Hle Hall].
    split; [lia|]. intros c' [->|Hin]%elem_of_cons; [lia|].
    specialize (Hall _ Hin). lia.
Qed.

(** The start keys of a chain increase strictly. *)
Lemma chain_starts_sorted lo hi l :
  chain lo hi l → StronglySorted Z.lt (l.*1).
Proof.
  revert lo. induction l as [|c l IH]; simpl; intros lo.
  - constructor.
  - intros (<- & Hlt & Hc). constructor; [eauto|].
    apply Forall_forall. intros x Hx.
    apply list_elem_of_fmap in Hx as (c' & -> & Hin).
    destruct (chain_bounds _ _ _ Hc) as [_ Hall].
    specialize (Hall _ Hin). lia.
Qed.

Lemma chain_head lo hi l : chain lo hi l → l ≠ [] → head (l.*1) = Some lo.
Proof.
  intros Hc Hne. destruct l as [|c l]; [done|].
  destruct Hc as [Hlo _]. simpl. by rewrite Hlo.
Qed.

#[global] Instance le_start_total : Total le_start.
Proof. intros a b. unfold le_start. lia. Qed.
#[global] Instance le_start_trans : Transitive le_start.
Proof. intros a b c. unfold le_start. lia. Qed.

Lemma chain_start_inj lo hi l c1 c2 :
  chain lo hi l → c1 ∈ l → c2 ∈ l → c1.1 = c2.1 → c1 = c2.
Proof.
  revert lo. induction l as [|c l IH]; simpl; intros lo Hc H1 H2 Heq.
  - by apply elem_of_nil in H1.
  - destruct Hc as (<- & Hlt & Hc).
    destruct (chain_bounds _ _ _ Hc) as [_ Hall].
    apply elem_of_cons in H1 as [->|H1]; apply elem_of_cons in H2 as [->|H2].
    + done.
    + specialize (Hall _ H2). lia.
    + specialize (Hall _ H1). lia.
    + eauto.
Qed.

(** Sorting a chain by start key leaves it as it is. *)
Lemma sort_splits_chain lo hi l : chain lo hi l → sort_splits l = l.
Proof.
  intros Hc. unfold sort_splits.
  apply (StronglySorted_unique_strong le_start).
  - intros x1 x2 H1 H2 Hle1 Hle2.
    rewrite merge_sort_Permutation in H1.
    apply (chain_start_inj lo hi l); [done..|]. unfold le_start in *. lia.
  - apply StronglySorted_merge_sort; apply _.
  - pose proof (chain_starts_sorted _ _ _ Hc) as Hs.
    clear Hc. induction l as [|c l IH]; [constructor|].
    rewrite fmap_cons in Hs. apply StronglySorted_inv in Hs as [Hs Hall].
    constructor; [eauto|].
    rewrite Forall_fmap in Hall.
    eapply Forall_impl; [exact Hall|]. intros x. unfold le_start. simpl. lia.
  - apply merge_sort_Permutation.
Qed.

(** ** Sorting the candidates *)

Lemma sort_Strings_perm l : sort_Strings l ≡ₚ l.
Proof. apply merge_sort_Permutation. Qed.

Lemma sort_Strings_length l : length (sort_Strings l) = length l.
Proof. by rewrite sort_Strings_perm. Qed.

Lemma sort_Strings_sorted l : StronglySorted String.le (sort_Strings l).
Proof. apply StronglySorted_merge_sort; apply _. Qed.

Lemma sort_Strings_Permutation l1 l2 :
  l1 ≡ₚ l2 → sort_Strings l1 = sort_Strings l2.
Proof.
  intros Hp. apply (StronglySorted_unique String.le);
    [apply sort_Strings_sorted..|].
  by rewrite !sort_Strings_perm.
Qed.

Lemma sort_Strings_idemp l : sort_Strings (sort_Strings l) = sort_Strings l.
Proof. apply sort_Strings_Permutation, sort_Strings_perm. Qed.

(** ** The round-robin assignment *)

Lemma assign_slices_spec candidates rId splits :
  (rId < length candidates)%nat →
  ∃ slices,
    assign_slices candidates rId splits = Some slices ∧
    Assignment_Slice.Start <$> slices = splits.*1 ∧
    ∀ i s, slices !! i = Some s →
      ∃ r, candidates !! ((rId + i) `mod` length candidates)%nat = Some r ∧
           Assignment_Slice.Replicas s = [r].
Proof.
  revert rId. induction splits as [|c splits IH]; intros rId Hr.
  - exists []. simpl. repeat split. intros i s. by rewrite lookup_nil.
  - destruct (lookup_lt_is_Some_2 candidates rId Hr) as [r Hlk].
    destruct (IH ((rId + 1) `mod` length candidates)%nat) as (slices & Heq & Hst & Hrep).
    { apply Nat.mod_upper_bound. lia. }
    exists (Assignment_Slice.mk c.1 [r] :: slices).
    split; [|split].
    { cbn [assign_slices]. rewrite Hlk. cbn [mbind option_bind]. by rewrite Heq. }
    { by rewrite !fmap_cons, Hst. }
    intros [|i] s Hs; simpl in Hs.
    + injection Hs as <-. exists r. rewrite Nat.add_0_r, Nat.mod_small by done. done.
    + destruct (Hrep i s Hs) as (r' & Hr' & Hs').
      exists r'. split; [|done].
      rewrite Nat.Div0.add_mod_idemp_l in Hr'.
      by replace (rId + S i)%nat with (rId + 1 + i)%nat by lia.
Qed.

(** ** What [routingAlgo] computes *)

Lemma pow2_to_nat (k : nat) : Z.to_nat (2 ^ Z.of_nat k) = (2 ^ k)%nat.
Proof.
  rewrite <- (Nat2Z.id (2 ^ k)). f_equal. by rewrite Nat2Z.inj_pow.
Qed.

Lemma routingAlgo_many cur candidates :
  (2 <= length candidates)%nat →
  let k := Z.to_nat (Z.log2_up (Z.of_nat (length candidates))) in
  (1 <= k)%nat ∧
  nextPowerOfTwo (Z.of_nat (length candidates)) = 2 ^ Z.of_nat k ∧
  split_loop (Z.to_nat (nextPowerOfTwo (Z.of_nat (length candidates))))
    (nextPowerOfTwo (Z.of_nat (length candidates))) [(0, MaxUint64)]
    = Some (level k) ∧
  routingAlgo cur candidates =
    (slices ← assign_slices (sort_Strings candidates) 0 (sort_splits (level k));
     Some (Assignment.set_Slices slices (bumped cur))).
Proof.
  intros Hlen k.
  assert (HK : 0 < Z.log2_up (Z.of_nat (length candidates))).
  { apply Z.log2_up_lt_pow2; simpl; lia. }
  assert (Hk : (1 <= k)%nat) by (unfold k; lia).
  assert (Hnext : nextPowerOfTwo (Z.of_nat (length candidates)) = 2 ^ Z.of_nat k).
  { rewrite nextPowerOfTwo_log2_up by lia. unfold k. by rewrite Z2Nat.id by lia. }
  assert (Hloop : split_loop (Z.to_nat (nextPowerOfTwo (Z.of_nat (length candidates))))
            (nextPowerOfTwo (Z.of_nat (length candidates))) [(0, MaxUint64)]
          = Some (level k)).
  { rewrite Hnext, pow2_to_nat. apply split_loop_level; lia. }
  split; [done|]. split; [done|]. split; [done|].
  unfold routingAlgo. rewrite !sort_Strings_length.
  destruct (decide (length candidates = 0%nat)); [lia|].
  destruct (decide (length candidates = 1%nat)); [lia|].
  cbv zeta. by rewrite Hloop.
Qed.

(** [routingAlgo] returns on every input. *)
Lemma routingAlgo_total cur candidates :
  ∃ slices,
    routingAlgo cur candidates = Some (Assignment.set_Slices slices (bumped cur)).
Proof.
  destruct (decide (2 <= length candidates)%nat) as [Hlen|Hlen].
  - destruct (routingAlgo_many cur candidates Hlen) as (_ & _ & _ & ->).
    edestruct (assign_slices_spec (sort_Strings candidates) 0) as (slices & -> & _).
    { rewrite sort_Strings_length. lia. }
    by exists slices.
  - unfold routingAlgo. rewrite sort_Strings_length.
    repeat case_decide; eauto. lia.
Qed.

(** The slices depend on the candidates only, and only up to their order. *)
Lemma routingAlgo_slices_perm cur1 cur2 c1 c2 new1 new2 :
  c1 ≡ₚ c2 →
  routingAlgo cur1 c1 = Some new1 → routingAlgo cur2 c2 = Some new2 →
  Assignment.Slices new1 = Assignment.Slices new2.
Proof.
  intros Hp H1 H2. unfold routingAlgo in *.
  rewrite (sort_Strings_Permutation _ _ Hp) in H1.
  repeat case_decide; simplify_eq/=; try done.
  destruct (split_loop _ _ _); simplify_eq/=.
  destruct (assign_slices _ _ _); by simplify_eq/=.
Qed.

(** ** Key ranges of the slices *)

Lemma slice_ranges_chain lo l :
  StronglySorted Z.lt (lo :: l) → Forall (λ s, s < 2 ^ 64) (lo :: l) →
  chain lo (2 ^ 64) (slice_ranges (lo :: l)).
Proof.
  revert lo. induction l as [|s l IH]; intros lo Hs Hb.
  - simpl. apply Forall_cons in Hb as [? _]. done.
  - apply StronglySorted_inv in Hs as [Hs Hall].
    apply Forall_cons in Hall as [Hlt _].
    apply Forall_cons in Hb as [_ Hb].
    change (chain lo (2 ^ 64) ((lo, s) :: slice_ranges (s :: l))).
    simpl chain. split; [done|]. split; [done|]. by apply IH.
Qed.

Lemma chain_owner lo hi l key :
  chain lo hi l → lo <= key < hi →
  ∃ i, (∃ r, l !! i = Some r ∧ owns r key) ∧
       ∀ j r, l !! j = Some r → owns r key → j = i.
Proof.
  revert lo. induction l as [|c l IH]; simpl; intros lo.
  - intros ->. lia.
  - intros (<- & Hlt & Hc) Hkey.
    destruct (chain_bounds _ _ _ Hc) as [_ Hall].
    destruct (decide (key < c.2)) as [Hk|Hk].
    + exists 0%nat. split.
      { exists c. split; [done|]. unfold owns. lia. }
      intros [|j] r Hj Ho; [done|]. simpl in Hj.
      apply list_elem_of_lookup_2, Hall in Hj. unfold owns in Ho. lia.
    + destruct (IH _ Hc) as (i & Hi & Huniq); [lia|].
      exists (S i). split; [done|].
      intros [|j] r Hj Ho; simpl in Hj.
      * simplify_eq. unfold owns in Ho. lia.
      * f_equal. eauto.
Qed.

(** The start keys of the result are those of a chain of ranges over the
    whole key space. *)
Lemma routingAlgo_chain cur candidates :
  candidates ≠ [] → Z.of_nat (length candidates) <= MaxInt32 →
  ∃ new splits,
    routingAlgo cur candidates = Some new ∧
    new = Assignment.set_Slices (Assignment.Slices new) (bumped cur) ∧
    starts new = splits.*1 ∧ splits ≠ [] ∧ chain 0 MaxUint64 splits ∧
    length (Assignment.Slices new) = length splits ∧
    Z.of_nat (length splits) =
      (if decide (length candidates = 1%nat) then 1
       else nextPowerOfTwo (Z.of_nat (length candidates))) ∧
    ((2 <= length candidates)%nat →
     ∃ raw,
       split_loop (Z.to_nat (nextPowerOfTwo (Z.of_nat (length candidates))))
         (nextPowerOfTwo (Z.of_nat (length candidates))) [(0, MaxUint64)]
         = Some raw ∧
       splits = sort_splits raw).
Proof.
  intros Hne Hmax.
  assert (Hpos : (1 <= length candidates)%nat).
  { destruct candidates; [done|simpl; lia]. }
  destruct (decide (length candidates = 1%nat)) as [H1|H1].
  - exists (Assignment.set_Slices
              [Assignment_Slice.mk 0 (sort_Strings candidates)] (bumped cur)),
           [(0, MaxUint64)].
    unfold routingAlgo. rewrite sort_Strings_length.
    destruct (decide (length candidates = 0%nat)); [lia|].
    destruct (decide (length candidates = 1%nat)); [|lia].
    unfold MaxUint64. simpl. repeat split; try done. lia.
  - destruct (routingAlgo_many cur candidates) as (Hk & Hnext & Hloop & Heq); [lia|].
    set (k := Z.to_nat (Z.log2_up (Z.of_nat (length candidates)))) in *.
    assert (Hk63 : (k <= 63)%nat).
    { assert (Z.log2_up (Z.of_nat (length candidates)) <= 31); [|lia].
      apply Z.log2_up_le_pow2; unfold MaxInt32 in Hmax; lia. }
    destruct (level_chain k Hk63) as [Hchain _].
    rewrite (sort_splits_chain _ _ _ Hchain) in Heq.
    destruct (assign_slices_spec (sort_Strings candidates) 0 (level k))
      as (slices & Hs & Hst & _).
    { rewrite sort_Strings_length. lia. }
    rewrite Hs in Heq. simpl in Heq.
    exists (Assignment.set_Slices slices (bumped cur)), (level k).
    split; [done|]. split; [done|]. split; [done|].
    assert (Hlen : length (level k) = (2 ^ k)%nat) by apply length_level.
    split; [|split; [done|split; [|split]]].
    + intros Hnil. rewrite Hnil in Hlen. simpl in Hlen.
      assert (1 <= 2 ^ k)%nat by (clear; induction k; simpl; lia). lia.
    + simpl. by rewrite <- (length_fmap Assignment_Slice.Start), Hst, length_fmap.
    + rewrite Hnext, Hlen. by rewrite Nat2Z.inj_pow.
    + intros _. exists (level k). split; [done|].
      by rewrite (sort_splits_chain _ _ _ Hchain).
Qed.

Lemma chain_starts_lt lo hi l :
  chain lo hi l → Forall (λ s, s < hi) (l.*1).
Proof.
  intros Hc. destruct (chain_bounds _ _ _ Hc) as [_ Hall].
  apply Forall_fmap, Forall_forall. intros c Hin.
  specialize (Hall c Hin). simpl. lia.
Qed.

(** ** The slices of an assignment *)

(** C2.  For every non-empty candidate list (of at most [MaxInt32]
    candidates), [routingAlgo] returns an assignment whose slices have
    strictly increasing start keys, the first of them 0; the ranges the
    slices stand for (each up to the start of the next, the last up to
    [2^64]) are non-empty and contiguous from 0 to [2^64], and every key of
    the uint64 key space is owned by exactly one slice.  With two or more
    candidates the start keys are those of the ranges that the splitting
    loop computes, which, once sorted, each end where the next begins,
    from 0 to [MaxUint64]. *)
Theorem routingAlgo_slices_cover cur candidates :
  candidates ≠ [] → Z.of_nat (length candidates) <= MaxInt32 →
  ∃ new,
    routingAlgo cur candidates = Some new ∧
    StronglySorted Z.lt (starts new) ∧
    head (starts new) = Some 0 ∧
    chain 0 (2 ^ 64) (slice_ranges (starts new)) ∧
    (∀ key, 0 <= key <= MaxUint64 →
      ∃ i, (∃ r, slice_ranges (starts new) !! i = Some r ∧ owns r key) ∧
           ∀ j r, slice_ranges (starts new) !! j = Some r → owns r key → j = i) ∧
    ((2 <= length candidates)%nat →
     ∃ raw,
       split_loop (Z.to_nat (nextPowerOfTwo (Z.of_nat (length candidates))))
         (nextPowerOfTwo (Z.of_nat (length candidates))) [(0, MaxUint64)]
         = Some raw ∧
       chain 0 MaxUint64 (sort_splits raw) ∧
       starts new = (sort_splits raw).*1).
Proof.
  intros Hne Hmax.
  destruct (routingAlgo_chain cur candidates Hne Hmax)
    as (new & splits & Heq & _ & Hst & Hsne & Hchain & _ & _ & Hraw).
  exists new. split; [done|].
  assert (Hcode : (2 <= length candidates)%nat →
     ∃ raw,
       split_loop (Z.to_nat (nextPowerOfTwo (Z.of_nat (length candidates))))
         (nextPowerOfTwo (Z.of_nat (length candidates))) [(0, MaxUint64)]
         = Some raw ∧
       chain 0 MaxUint64 (sort_splits raw) ∧
       starts new = (sort_splits raw).*1).
  { intros H2. destruct (Hraw H2) as (raw & Hloop & ->). by exists raw. }
  rewrite Hst.
  pose proof (chain_starts_sorted _ _ _ Hchain) as Hsorted.
  pose proof (chain_head _ _ _ Hchain Hsne) as Hhead.
  pose proof (chain_starts_lt _ _ _ Hchain) as Hlt.
  destruct (splits.*1) as [|s0 rest] eqn:Hsplits; [done|].
  simpl in Hhead. assert (s0 = 0) as -> by congruence.
  assert (Hranges : chain 0 (2 ^ 64) (slice_ranges (0 :: rest))).
  { apply slice_ranges_chain; [done|].
    eapply Forall_impl; [exact Hlt|]. unfold MaxUint64. simpl. lia. }
  split; [done|]. split; [done|]. split; [done|]. split.
  - intros key Hkey. apply (chain_owner 0 (2 ^ 64)); [done|].
    unfold MaxUint64 in Hkey. lia.
  - intros H2. destruct (Hcode H2) as (raw & Hloop & Hc & Hs).
    exists raw. split; [done|]. split; [done|]. by rewrite <- Hs, Hst.
Qed.

Lemma routingAlgo_slices_cover_witness :
  ∃ new,
    routingAlgo a0 ["c"; "a"; "b"] = Some new ∧
    StronglySorted Z.lt (starts new) ∧
    head (starts new) = Some 0 ∧
    chain 0 (2 ^ 64) (slice_ranges (starts new)) ∧
    (∀ key, 0 <= key <= MaxUint64 →
      ∃ i, (∃ r, slice_ranges (starts new) !! i = Some r ∧ owns r key) ∧
           ∀ j r, slice_ranges (starts new) !! j = Some r → owns r key → j = i) ∧
    ((2 <= length ["c"; "a"; "b"])%nat →
     ∃ raw,
       split_loop (Z.to_nat (nextPowerOfTwo (Z.of_nat (length ["c"; "a"; "b"]))))
         (nextPowerOfTwo (Z.of_nat (length ["c"; "a"; "b"]))) [(0, MaxUint64)]
         = Some raw ∧
       chain 0 MaxUint64 (sort_splits raw) ∧
       starts new = (sort_splits raw).*1).
Proof.
  apply (routingAlgo_slices_cover a0 ["c"; "a"; "b"]).
  - discriminate.
  - vm_compute. discriminate.
Defined.

(** C6.  On the candidates ["b"; "a"], [routingAlgo] sorts them to
    ["a"; "b"] and returns exactly two slices: the first starts at key 0
    and is owned by "a", the second starts at key [2^63] and is owned by
    "b". *)
Theorem routingAlgo_b_a cur :
  sort_Strings ["b"; "a"] = ["a"; "b"] ∧
  routingAlgo cur ["b"; "a"] =
    Some (Assignment.set_Slices
            [Assignment_Slice.mk 0 ["a"]; Assignment_Slice.mk (2 ^ 63) ["b"]]
            (bumped cur)).
Proof. split; reflexivity. Qed.

(** C4.  [routingAlgo] is deterministic and content-idempotent: run on an
    assignment and then again on its own result, with the same candidates
    in any order, it returns both times, with identical slices; each run
    adds one to the version (in uint64 arithmetic) and leaves the other
    fields alone, also when no candidate is given; and the slices do not
    depend on the input assignment at all. *)
Theorem routingAlgo_idempotent cur c1 c2 :
  c1 ≡ₚ c2 →
  ∃ new1 new2,
    routingAlgo cur c1 = Some new1 ∧
    routingAlgo new1 c2 = Some new2 ∧
    Assignment.Slices new2 = Assignment.Slices new1 ∧
    Assignment.Version new1 = wrap64 (Assignment.Version cur + 1) ∧
    Assignment.Version new2 = wrap64 (Assignment.Version new1 + 1) ∧
    (0 <= Assignment.Version cur < MaxUint64 →
       Assignment.Version new1 = Assignment.Version cur + 1) ∧
    (Assignment.App new2, Assignment.DeploymentId new2, Assignment.Component new2)
      = (Assignment.App cur, Assignment.DeploymentId cur, Assignment.Component cur) ∧
    (∀ cur' new', routingAlgo cur' c2 = Some new' →
       Assignment.Slices new' = Assignment.Slices new1) ∧
    (c1 = [] → Assignment.Slices new1 = []).
Proof.
  intros Hp.
  destruct (routingAlgo_total cur c1) as (s1 & H1).
  destruct (routingAlgo_total (Assignment.set_Slices s1 (bumped cur)) c2) as (s2 & H2).
  eexists _, _. split; [exact H1|]. split; [exact H2|].
  pose proof (routingAlgo_slices_perm _ _ _ _ _ _ Hp H1 H2) as Hs.
  split; [by rewrite Hs|]. split; [done|]. split; [done|].
  split.
  { intros Hv. simpl. unfold wrap64, MaxUint64 in *. apply Z.mod_small. lia. }
  split; [done|]. split.
  { intros cur' new' H'. symmetry.
    apply (routingAlgo_slices_perm _ _ _ _ _ _ Hp H1 H'). }
  intros ->. by injection H1 as <-.
Qed.

Lemma routingAlgo_idempotent_witness :
  ∃ new1 new2,
    routingAlgo a0 ["b"; "a"; "c"] = Some new1 ∧
    routingAlgo new1 ["c"; "b"; "a"] = Some new2 ∧
    Assignment.Slices new2 = Assignment.Slices new1 ∧
    Assignment.Version new1 = wrap64 (Assignment.Version a0 + 1) ∧
    Assignment.Version new2 = wrap64 (Assignment.Version new1 + 1) ∧
    (0 <= Assignment.Version a0 < MaxUint64 →
       Assignment.Version new1 = Assignment.Version a0 + 1) ∧
    (Assignment.App new2, Assignment.DeploymentId new2, Assignment.Component new2)
      = (Assignment.App a0, Assignment.DeploymentId a0, Assignment.Component a0) ∧
    (∀ cur' new', routingAlgo cur' ["c"; "b"; "a"] = Some new' →
       Assignment.Slices new' = Assignment.Slices new1) ∧
    (["b"; "a"; "c"] = [] → Assignment.Slices new1 = []).
Proof.
  apply (routingAlgo_idempotent a0 ["b"; "a"; "c"] ["c"; "b"; "a"]).
  symmetry. apply (Permutation_cons_app ["b"; "a"] []).
  simpl. reflexivity.
Defined.

(** C5.  The number of slices is a function of the number [N] of
    candidates (at most [MaxInt32]): no slice for [N = 0], the version
    being incremented all the same; one slice, starting at key 0 and owned
    by the only candidate, for [N = 1]; and [nextPowerOfTwo N] slices for
    [N >= 2], which is the least power of two that is at least [N]. *)
Theorem routingAlgo_slice_count cur candidates :
  Z.of_nat (length candidates) <= MaxInt32 →
  ∃ new,
    routingAlgo cur candidates = Some new ∧
    Assignment.Version new = wrap64 (Assignment.Version cur + 1) ∧
    (length candidates = 0%nat → Assignment.Slices new = []) ∧
    (length candidates = 1%nat →
       Assignment.Slices new = [Assignment_Slice.mk 0 candidates]) ∧
    ((2 <= length candidates)%nat →
       Z.of_nat (length (Assignment.Slices new))
         = nextPowerOfTwo (Z.of_nat (length candidates)) ∧
       (∃ k, 0 <= k ∧ nextPowerOfTwo (Z.of_nat (length candidates)) = 2 ^ k) ∧
       Z.of_nat (length candidates) <= nextPowerOfTwo (Z.of_nat (length candidates)) ∧
       ∀ k, 0 <= k → Z.of_nat (length candidates) <= 2 ^ k →
            nextPowerOfTwo (Z.of_nat (length candidates)) <= 2 ^ k).
Proof.
  intros Hmax.
  destruct (routingAlgo_total cur candidates) as (slices & Heq).
  exists (Assignment.set_Slices slices (bumped cur)).
  split; [done|]. split; [done|]. split; [|split].
  - intros H0. unfold routingAlgo in Heq. rewrite sort_Strings_length in Heq.
    destruct (decide (length candidates = 0%nat)); [|done].
    by injection Heq as <-.
  - intros H1. unfold routingAlgo in Heq. rewrite sort_Strings_length in Heq.
    destruct (decide (length candidates = 0%nat)); [lia|].
    destruct (decide (length candidates = 1%nat)); [|done].
    injection Heq as <-. simpl. do 2 f_equal.
    by destruct candidates as [|x [|y l]].
  - intros H2.
    destruct (routingAlgo_chain cur candidates)
      as (new & splits & Heq' & _ & _ & _ & _ & Hlen & Hcount & _); [intros ->; simpl in H2; lia|done|].
    rewrite Heq in Heq'. injection Heq' as <-.
    destruct (decide (length candidates = 1%nat)); [lia|].
    split; [by rewrite Hlen|].
    destruct (nextPowerOfTwo_least (Z.of_nat (length candidates))) as [Hle Hleast]; [lia|].
    split; [|done].
    exists (Z.log2_up (Z.of_nat (length candidates))).
    split; [apply Z.log2_up_nonneg|]. apply nextPowerOfTwo_log2_up. lia.
Qed.

Lemma routingAlgo_slice_count_witness :
  ∃ new,
    routingAlgo a0 ["a"; "b"; "c"] = Some new ∧
    Assignment.Version new = wrap64 (Assignment.Version a0 + 1) ∧
    (length ["a"; "b"; "c"] = 0%nat → Assignment.Slices new = []) ∧
    (length ["a"; "b"; "c"] = 1%nat →
       Assignment.Slices new = [Assignment_Slice.mk 0 ["a"; "b"; "c"]]) ∧
    ((2 <= length ["a"; "b"; "c"])%nat →
       Z.of_nat (length (Assignment.Slices new)) = nextPowerOfTwo (Z.of_nat 3) ∧
       (∃ k, 0 <= k ∧ nextPowerOfTwo (Z.of_nat 3) = 2 ^ k) ∧
       Z.of_nat 3 <= nextPowerOfTwo (Z.of_nat 3) ∧
       ∀ k, 0 <= k → Z.of_nat 3 <= 2 ^ k → nextPowerOfTwo (Z.of_nat 3) <= 2 ^ k).
Proof.
  apply (routingAlgo_slice_count a0 ["a"; "b"; "c"]).
  vm_compute. discriminate.
Defined.

(** * Properties of the manager *)

(** ** Reads with no version never wait *)

Lemma Read_no_version {T} ctx_done (m : gmap string (versioned_map.entry T)) key :
  versioned_map.Read ctx_done m key "" =
    versioned_map.Value (versioned_map.value <$> m !! key)
      (versioned_map.version_of (m !! key)).
Proof. unfold versioned_map.Read. case_decide as H; [done|]. by destruct H; left. Qed.

Lemma loadAppState_no_version env m :
  ∃ state,
    loadAppState env m "" =
      Ok (state, versioned_map.version_of (manager.appState m !! appVersionStateKey)) ∧
    state =
      default (AppVersionState.mk (manager.dep_App_Name m) (manager.dep_Id m)
                 (now env) [] ∅)
        (versioned_map.value <$> manager.appState m !! appVersionStateKey).
Proof. unfold loadAppState. rewrite Read_no_version. eauto. Qed.

Lemma Update_ne {T} key (v : T) (m : gmap string (versioned_map.entry T)) :
  versioned_map.Update key v m ≠ m.
Proof.
  intros Heq. apply (f_equal (λ m, versioned_map.counter_of (m !! key))) in Heq.
  unfold versioned_map.Update in Heq. rewrite lookup_insert_eq in Heq.
  simpl in Heq. lia.
Qed.

(** ** [getRoutingInfo] *)

(** C10.  [getRoutingInfo] never returns a nil message with a nil error.
    For a group whose routing key has never been written, a request whose
    version is empty or is not the store's current one is answered at once,
    without error, by the empty [RoutingInfo] carrying the version read
    from the store.  (A request that carries the current version waits for
    a write, or fails when the context is cancelled.) *)
Theorem getRoutingInfo_not_found env m req :
  getRoutingInfo env m req ≠ Ok None ∧
  (manager.routingState m !! routingKey env (GetRoutingInfo.Group req) = None →
   GetRoutingInfo.Version req = "" ∨
     GetRoutingInfo.Version req ≠ versioned_map.version_of (T := RoutingInfo.t) None →
   getRoutingInfo env m req =
     Ok (Some (RoutingInfo.mk (versioned_map.version_of (T := RoutingInfo.t) None) [] []))).
Proof.
  split.
  - unfold getRoutingInfo, loadRoutingState.
    destruct (versioned_map.Read _ _ _ _) as [[state|] v | err |]; done.
  - intros Hnone Hv. unfold getRoutingInfo, loadRoutingState, versioned_map.Read.
    rewrite Hnone. by rewrite decide_True.
Qed.

Lemma getRoutingInfo_not_found_witness :
  getRoutingInfo env0 m0 (GetRoutingInfo.mk "g" "") ≠ Ok None ∧
  getRoutingInfo env0 m0 (GetRoutingInfo.mk "g" "") =
    Ok (Some (RoutingInfo.mk "0" [] [])).
Proof.
  destruct (getRoutingInfo_not_found env0 m0 (GetRoutingInfo.mk "g" "")) as [H1 H2].
  split; [exact H1|]. apply H2; [reflexivity|left; reflexivity].
Defined.

(** A request that carries the current version of a key never written
    waits, and fails with the cancellation error once the context is
    cancelled. *)
Lemma getRoutingInfo_current_version env m req :
  manager.routingState m !! routingKey env (GetRoutingInfo.Group req) = None →
  GetRoutingInfo.Version req = versioned_map.version_of (T := RoutingInfo.t) None →
  getRoutingInfo env m req =
    if manager.ctx_done m then Err error.Canceled else Blocked.
Proof.
  intros Hnone Hv. unfold getRoutingInfo, loadRoutingState, versioned_map.Read.
  rewrite Hnone, Hv. rewrite decide_False.
  - by destruct (manager.ctx_done m).
  - intros [?|?]; done.
Qed.

(** ** [exportListener] *)

(** C7.  When no proxy exists yet for the listener and the bind fails,
    [exportListener] returns a reply whose [Error] field is the message of
    the failure, and a nil error, if the address is already in use, and
    returns the (wrapped) failure as its error otherwise; in both cases
    the proxies are left as they were, with none for that listener. *)
Theorem exportListener_bind_failure env m req err :
  manager.proxies m !! Listener.Name (ExportListenerRequest.Listener req) = None →
  net_Listen env (ExportListenerRequest.LocalAddress req) = inr err →
  (exportListener env m req).2 =
    (if error.is_EADDRINUSE err
     then Ok (ExportListenerReply.mk "" (error.Error err))
     else Err (error.wrap "proxy listen: " err "")) ∧
  manager.proxies (exportListener env m req).1 = manager.proxies m ∧
  manager.proxies (exportListener env m req).1
    !! Listener.Name (ExportListenerRequest.Listener req) = None.
Proof.
  intros Hnone Hlisten. unfold exportListener.
  destruct (loadAppState_no_version env m) as (state & -> & _).
  cbn [manager.proxies manager.set_appState]. rewrite Hnone, Hlisten.
  by destruct (error.is_EADDRINUSE err).
Qed.

Lemma exportListener_bind_failure_witness :
  ((exportListener (id_env (λ _, inr in_use) (λ _ _ _, None)) m0 export_L).2 =
     Ok (ExportListenerReply.mk "" "listen tcp :80: bind: address already in use") ∧
   manager.proxies (exportListener (id_env (λ _, inr in_use) (λ _ _ _, None)) m0 export_L).1
     = ∅) ∧
  ((exportListener (id_env (λ _, inr denied) (λ _ _ _, None)) m0 export_L).2 =
     Err (error.mk "proxy listen: listen tcp :80: bind: permission denied" false) ∧
   manager.proxies (exportListener (id_env (λ _, inr denied) (λ _ _ _, None)) m0 export_L).1
     = ∅).
Proof.
  split.
  - destruct (exportListener_bind_failure
                (id_env (λ _, inr in_use) (λ _ _ _, None)) m0 export_L in_use)
      as (H1 & H2 & _); [reflexivity..|].
    split; [exact H1|exact H2].
  - destruct (exportListener_bind_failure
                (id_env (λ _, inr denied) (λ _ _ _, None)) m0 export_L denied)
      as (H1 & H2 & _); [reflexivity..|].
    split; [exact H1|exact H2].
Defined.

(** ** [startColocationGroup] *)

Lemma launches_cons group replicaId loc locs :
  launches group replicaId (loc :: locs) =
    (loc, ColocationGroup.Name group, replicaId) :: launches group (S replicaId) locs.
Proof.
  unfold launches. simpl. rewrite Nat.add_0_r. f_equal.
  apply imap_ext. intros i x _. simpl. do 2 f_equal. lia.
Qed.

Lemma set_babysitters_app m l1 l2 :
  manager.set_babysitters (λ l, l ++ l2) (manager.set_babysitters (λ l, l ++ l1) m)
  = manager.set_babysitters (λ l, l ++ l1 ++ l2) m.
Proof. destruct m. unfold manager.set_babysitters. simpl. by rewrite <- app_assoc. Qed.

Lemma start_locations_all env m group replicaId locs :
  (∀ i loc, locs !! i = Some loc →
            startBabysitter env loc group (replicaId + i) = None) →
  start_locations env m group replicaId locs =
    (manager.set_babysitters (λ l, l ++ launches group replicaId locs) m, None).
Proof.
  revert m replicaId. induction locs as [|loc locs IH]; intros m replicaId Hok.
  - simpl. destruct m. unfold manager.set_babysitters. simpl. by rewrite app_nil_r.
  - cbn [start_locations].
    pose proof (Hok 0%nat loc eq_refl) as H0. rewrite Nat.add_0_r in H0. rewrite H0.
    rewrite IH.
    + by rewrite set_babysitters_app, launches_cons.
    + intros i loc' Hi. specialize (Hok (S i) loc' Hi).
      by replace (S replicaId + i)%nat with (replicaId + S i)%nat by lia.
Qed.

Lemma start_locations_fail env m group replicaId locs i loc err :
  locs !! i = Some loc →
  startBabysitter env loc group (replicaId + i) = Some err →
  (∀ j loc', (j < i)%nat → locs !! j = Some loc' →
             startBabysitter env loc' group (replicaId + j) = None) →
  start_locations env m group replicaId locs =
    (manager.set_babysitters (λ l, l ++ launches group replicaId (take (S i) locs)) m,
     Some (launch_error group loc err)).
Proof.
  revert m replicaId i. induction locs as [|loc0 locs IH]; intros m replicaId i Hi Herr Hbefore.
  - done.
  - cbn [start_locations]. destruct i as [|i].
    + simpl in Hi. injection Hi as ->. rewrite Nat.add_0_r in Herr. rewrite Herr.
      by rewrite firstn_cons, take_0, launches_cons.
    + pose proof (Hbefore 0%nat loc0 ltac:(lia) eq_refl) as H0.
      rewrite Nat.add_0_r in H0. rewrite H0.
      rewrite (IH _ _ i); [| done | by replace (S replicaId + i)%nat with (replicaId + S i)%nat by lia |].
      * by rewrite set_babysitters_app, firstn_cons, launches_cons.
      * intros j loc' Hj Hlk. specialize (Hbefore (S j) loc' ltac:(lia) Hlk).
        by replace (S replicaId + j)%nat with (replicaId + S j)%nat by lia.
Qed.

(** C3, as the code has it.  A group that is already started is left
    alone.  Otherwise the babysitters are started location by location, in
    order: if every start succeeds, all locations are attempted and the
    group is marked as started; if the start at a location fails, that
    error is returned at once, the locations after it are not attempted,
    and the group is not marked as started. *)
Theorem startColocationGroup_first_failure env m group :
  (is_Some (manager.started m !! ColocationGroup.Name group) →
   startColocationGroup env m group = (m, Ok ())) ∧
  (manager.started m !! ColocationGroup.Name group = None →
   (∀ i loc, manager.locations m !! i = Some loc →
             startBabysitter env loc group i = None) →
   startColocationGroup env m group =
     (manager.set_started (insert (ColocationGroup.Name group) true)
        (manager.set_babysitters
           (λ l, l ++ launches group 0 (manager.locations m)) m),
      Ok ())) ∧
  (manager.started m !! ColocationGroup.Name group = None →
   ∀ i loc err,
     manager.locations m !! i = Some loc →
     startBabysitter env loc group i = Some err →
     (∀ j loc', (j < i)%nat → manager.locations m !! j = Some loc' →
                startBabysitter env loc' group j = None) →
     startColocationGroup env m group =
       (manager.set_babysitters
          (λ l, l ++ launches group 0 (take (S i) (manager.locations m))) m,
        Err (launch_error group loc err))).
Proof.
  unfold startColocationGroup. repeat split.
  - intros Hs. by rewrite decide_True.
  - intros Hnone Hok. rewrite decide_False by (rewrite Hnone; by intros [? ?]).
    by rewrite start_locations_all.
  - intros Hnone i loc err Hi Herr Hbefore.
    rewrite decide_False by (rewrite Hnone; by intros [? ?]).
    by rewrite (start_locations_fail env m group 0 _ i loc err).
Qed.

Lemma startColocationGroup_first_failure_witness :
  startColocationGroup env_l0_down m0 (ColocationGroup.mk "g") =
    (manager.set_babysitters (λ l, l ++ [("l0", "g", 0%nat)]) m0,
     Err (launch_error (ColocationGroup.mk "g") "l0" no_route)).
Proof.
  destruct (startColocationGroup_first_failure env_l0_down m0 (ColocationGroup.mk "g"))
    as (_ & _ & H).
  apply (H eq_refl 0%nat "l0" no_route); [reflexivity|reflexivity|].
  intros j loc' Hj. lia.
Defined.

(** With locations "l0" and "l1" and a failure at "l0", the babysitter of
    "l1" is never started: the placement on the other location is given
    up. *)
Lemma startColocationGroup_gives_up :
  manager.locations m0 = ["l0"; "l1"] ∧
  manager.babysitters
    (startColocationGroup env_l0_down m0 (ColocationGroup.mk "g")).1
    = [("l0", "g", 0%nat)] ∧
  ¬ ∃ replicaId,
      ("l1", "g", replicaId) ∈
        manager.babysitters
          (startColocationGroup env_l0_down m0 (ColocationGroup.mk "g")).1.
Proof.
  split; [reflexivity|]. split; [reflexivity|].
  intros [replicaId Hin]. vm_compute in Hin.
  apply list_elem_of_singleton in Hin. discriminate.
Qed.

(** ** Recomputing the routing information *)

Lemma recompute_total replicas assignments :
  recompute replicas assignments =
    Some ((λ a, default a (routingAlgo a replicas)) <$> assignments).
Proof.
  unfold recompute. rewrite decide_True; [done|].
  intros k a _. destruct (routingAlgo_total a replicas) as [s ->]. eauto.
Qed.

Lemma updateRoutingInfo_spec env m g info :
  updateRoutingInfo env m g info =
    (if decide (stored_routing env m (ColocationGroupState.Name g) = info)
     then m
     else manager.set_routingState
            (versioned_map.Update (routingKey env (ColocationGroupState.Name g)) info) m,
     Ok ()).
Proof.
  unfold updateRoutingInfo, loadRoutingState, stored_routing, gproto_Equal.
  rewrite Read_no_version.
  destruct (manager.routingState m !! _) as [e|]; simpl.
  all: destruct (decide (_ = info)) as [Heq|Hne].
  all: try (rewrite bool_decide_eq_true_2; [done|congruence]).
  all: rewrite bool_decide_eq_false_2; [done|congruence].
Qed.

Lemma mayGenerateNewRoutingInfo_spec env m g :
  mayGenerateNewRoutingInfo env m g =
    ((updateRoutingInfo env m (recomputed g) (routing_info env (recomputed g))).1,
     recomputed g, Ok ()).
Proof.
  unfold mayGenerateNewRoutingInfo. rewrite recompute_total.
  change (
    (let '(m1, r) :=
       updateRoutingInfo env m (recomputed g) (routing_info env (recomputed g)) in
     (m1, recomputed g, r)) =
    ((updateRoutingInfo env m (recomputed g) (routing_info env (recomputed g))).1,
     recomputed g, Ok ())).
  by rewrite updateRoutingInfo_spec.
Qed.

Lemma updateRoutingInfo_appState env m g info :
  manager.appState (updateRoutingInfo env m g info).1 = manager.appState m.
Proof. rewrite updateRoutingInfo_spec. by case_decide. Qed.

Lemma start_locations_appState env m group replicaId locs :
  manager.appState (start_locations env m group replicaId locs).1 = manager.appState m.
Proof.
  revert m replicaId. induction locs as [|loc locs IH]; intros m replicaId; [done|].
  cbn [start_locations]. destruct (startBabysitter _ _ _ _); [done|].
  by rewrite IH.
Qed.

Lemma startColocationGroup_appState env m group :
  manager.appState (startColocationGroup env m group).1 = manager.appState m.
Proof.
  unfold startColocationGroup. case_decide; [done|].
  pose proof (start_locations_appState env m group 0 (manager.locations m)) as Hs.
  destruct (start_locations _ _ _ _ _) as [m' [err|]]; done.
Qed.

(** ** [registerReplica] *)

Lemma found_replica_elem_of address replicas :
  found_replica address replicas = true ↔ address ∈ replicas.
Proof.
  unfold found_replica. rewrite existsb_exists. split.
  - intros (x & Hin & Hx). apply bool_decide_eq_true in Hx as ->.
    by apply list_elem_of_In.
  - intros Hin. exists address. split; [by apply list_elem_of_In|].
    by apply bool_decide_eq_true.
Qed.

Lemma findOrAddGroup_spec env m group state v :
  loadAppState env m "" = Ok (state, v) →
  (findOrAddGroup state group).2 = current_group m group ∧
  AppVersionState.Groups (findOrAddGroup state group).1 !! group
    = Some (current_group m group) ∧
  ∀ group', group' ≠ group →
    AppVersionState.Groups (findOrAddGroup state group).1 !! group'
      = stored_group m group'.
Proof.
  unfold loadAppState. rewrite Read_no_version. intros [= <- _].
  unfold findOrAddGroup, current_group, stored_group.
  destruct (manager.appState m !! appVersionStateKey) as [e|]; simpl.
  - destruct (AppVersionState.Groups (versioned_map.value e) !! group) as [g|] eqn:Hg;
      simpl; [done|].
    rewrite lookup_insert_eq. split; [done|]. split; [done|].
    intros group' Hne. by rewrite lookup_insert_ne.
  - rewrite lookup_empty. simpl. rewrite lookup_insert_eq.
    split; [done|]. split; [done|].
    intros group' Hne. by rewrite lookup_insert_ne, lookup_empty.
Qed.

Lemma stored_group_Update (m : manager.t) state group :
  stored_group
    (manager.set_appState (versioned_map.Update appVersionStateKey state) m) group
  = AppVersionState.Groups state !! group.
Proof.
  unfold stored_group, versioned_map.Update. destruct m. simpl.
  by rewrite lookup_insert_eq.
Qed.

Lemma registerReplica_spec env m req :
  let group := ReplicaToRegister.Group req in
  let g' := recomputed (registered req (current_group m group)) in
  ∃ m',
    registerReplica env m req = (m', Ok ()) ∧
    stored_group m' group = Some g' ∧
    ∀ group', group' ≠ group → stored_group m' group' = stored_group m group'.
Proof.
  intros group g'. unfold registerReplica.
  destruct (loadAppState_no_version env m) as (state & Hload & _).
  rewrite Hload.
  destruct (findOrAddGroup_spec env m group state _ Hload) as (Hg & Hlk & Hother).
  fold group. destruct (findOrAddGroup state group) as [state1 g] eqn:Hfind.
  simpl in Hg, Hlk, Hother. subst g.
  fold (registered req (current_group m group)).
  rewrite mayGenerateNewRoutingInfo_spec. fold g'.
  eexists. split; [done|].
  split.
  - rewrite stored_group_Update.
    unfold put_group. simpl. by rewrite lookup_insert_eq.
  - intros group' Hne. rewrite stored_group_Update.
    unfold put_group. simpl. rewrite lookup_insert_ne by done. by apply Hother.
Qed.

(** C8.  Registering the same address for the same group a second time
    (whatever the pid, and whatever the world answers) returns with a nil
    error, as the first time, and leaves the replica list of the group,
    hence its length, as the first registration left it: the address is
    in it and is not appended again. *)
Theorem registerReplica_idempotent env env' m req pid' :
  ∃ m1 m2 g1 g2,
    registerReplica env m req = (m1, Ok ()) ∧
    registerReplica env' m1
      (ReplicaToRegister.mk (ReplicaToRegister.Group req)
         (ReplicaToRegister.Address req) pid') = (m2, Ok ()) ∧
    stored_group m1 (ReplicaToRegister.Group req) = Some g1 ∧
    stored_group m2 (ReplicaToRegister.Group req) = Some g2 ∧
    ReplicaToRegister.Address req ∈ ColocationGroupState.Replicas g1 ∧
    length (ColocationGroupState.Replicas g2) = length (ColocationGroupState.Replicas g1) ∧
    ColocationGroupState.Replicas g2 = ColocationGroupState.Replicas g1 ∧
    ColocationGroupState.ReplicaPids g2 = ColocationGroupState.ReplicaPids g1.
Proof.
  destruct (registerReplica_spec env m req) as (m1 & H1 & Hg1 & _).
  set (req' := ReplicaToRegister.mk _ _ pid').
  destruct (registerReplica_spec env' m1 req') as (m2 & H2 & Hg2 & _).
  cbn [ReplicaToRegister.Group req'] in Hg2.
  eexists m1, m2, _, _. split; [exact H1|]. split; [exact H2|].
  split; [exact Hg1|]. split; [exact Hg2|].
  set (g1 := recomputed (registered req (current_group m (ReplicaToRegister.Group req)))).
  assert (Hin : ReplicaToRegister.Address req ∈ ColocationGroupState.Replicas g1).
  { unfold g1, recomputed. simpl. rewrite sort_Strings_perm.
    unfold registered.
    destruct (found_replica _ _) eqn:Hf; simpl.
    - by apply found_replica_elem_of.
    - apply elem_of_app. right. by apply list_elem_of_singleton. }
  split; [exact Hin|].
  assert (Hcur : current_group m1 (ReplicaToRegister.Group req) = g1).
  { unfold current_group. by rewrite Hg1. }
  rewrite Hcur. unfold registered. cbn [ReplicaToRegister.Address req'].
  apply found_replica_elem_of in Hin. rewrite Hin.
  assert (Hrep : ColocationGroupState.Replicas (recomputed g1)
                 = ColocationGroupState.Replicas g1).
  { unfold g1, recomputed. simpl. apply sort_Strings_idemp. }
  split; [by rewrite Hrep|]. split; [exact Hrep|done].
Qed.

(** ** The replica lists of the stored groups *)

Lemma group_ok_empty group : group_ok (empty_group group).
Proof. by split. Qed.

Lemma group_ok_current m group : groups_ok m → group_ok (current_group m group).
Proof.
  intros Hok. unfold current_group.
  destruct (stored_group m group) as [g|] eqn:Hg; simpl; [eauto|apply group_ok_empty].
Qed.

Lemma group_ok_recomputed g :
  length (ColocationGroupState.Replicas g) = length (ColocationGroupState.ReplicaPids g) →
  group_ok (recomputed g).
Proof.
  intros Hlen. unfold group_ok, recomputed. simpl.
  by rewrite sort_Strings_length, sort_Strings_idemp.
Qed.

Lemma registered_length req g :
  length (ColocationGroupState.Replicas g) = length (ColocationGroupState.ReplicaPids g) →
  length (ColocationGroupState.Replicas (registered req g))
  = length (ColocationGroupState.ReplicaPids (registered req g)).
Proof.
  intros Hlen. unfold registered. destruct (found_replica _ _); [done|].
  simpl. rewrite !length_app, Hlen. done.
Qed.

Lemma stored_group_ext m m' group :
  manager.appState m' = manager.appState m →
  stored_group m' group = stored_group m group.
Proof. unfold stored_group. by intros ->. Qed.

Lemma groups_ok_registerReplica env m req :
  groups_ok m → groups_ok (registerReplica env m req).1.
Proof.
  intros Hok. destruct (registerReplica_spec env m req) as (m' & -> & Hg & Hother).
  intros group g Hs. simpl in Hs.
  destruct (decide (group = ReplicaToRegister.Group req)) as [->|Hne].
  - rewrite Hg in Hs. injection Hs as <-.
    apply group_ok_recomputed, registered_length, group_ok_current, Hok.
  - rewrite Hother in Hs by done. eauto.
Qed.

Lemma exportListener_stored env m req group :
  stored_group (exportListener env m req).1 group = stored_group m group.
Proof.
  unfold exportListener.
  destruct (loadAppState_no_version env m) as (state & -> & Hstate).
  assert (Hgroups : AppVersionState.Groups state !! group = stored_group m group).
  { rewrite Hstate. unfold stored_group.
    destruct (manager.appState m !! appVersionStateKey); simpl; [done|].
    by rewrite lookup_empty. }
  cbn [manager.proxies manager.set_appState].
  destruct (manager.proxies m !! _) as [p|].
  { cbn [fst]. rewrite <- Hgroups.
    rewrite (stored_group_ext (manager.set_appState
               (versioned_map.Update appVersionStateKey
                  (AppVersionState.set_Listeners
                     (λ l, l ++ [ExportListenerRequest.Listener req]) state)) m)) by done.
    by rewrite stored_group_Update. }
  destruct (net_Listen env _) as [addr|err]; [|destruct (error.is_EADDRINUSE err)];
    cbn [fst]; rewrite <- Hgroups.
  - rewrite (stored_group_ext (manager.set_appState
               (versioned_map.Update appVersionStateKey
                  (AppVersionState.set_Listeners
                     (λ l, l ++ [ExportListenerRequest.Listener req]) state)) m)) by done.
    by rewrite stored_group_Update.
  - by rewrite stored_group_Update.
  - by rewrite stored_group_Update.
Qed.

Lemma startComponent_spec env m req :
  let group := ComponentToStart.ColocationGroup req in
  ∃ g,
    ColocationGroupState.Replicas g = ColocationGroupState.Replicas (current_group m group) ∧
    ColocationGroupState.ReplicaPids g
      = ColocationGroupState.ReplicaPids (current_group m group) ∧
    stored_group (startComponent env m req).1 group = Some (recomputed g) ∧
    ∀ group', group' ≠ group →
      stored_group (startComponent env m req).1 group' = stored_group m group'.
Proof.
  intros group. unfold startComponent.
  destruct (loadAppState_no_version env m) as (state & Hload & _).
  rewrite Hload.
  destruct (findOrAddGroup_spec env m group state _ Hload) as (Hg & Hlk & Hother).
  fold group. destruct (findOrAddGroup state group) as [state1 g] eqn:Hfind.
  simpl in Hg, Hlk, Hother. subst g.
  match goal with
  | |- context [mayGenerateNewRoutingInfo env m ?g2] => set (g := g2)
  end.
  exists g. rewrite mayGenerateNewRoutingInfo_spec.
  split; [|split].
  { unfold g. destruct (ComponentToStart.IsRouted req); [|done].
    by case_match. }
  { unfold g. destruct (ComponentToStart.IsRouted req); [|done].
    by case_match. }
  set (m1 := manager.set_appState _ _).
  assert (Hm1 : ∀ group', stored_group (startColocationGroup env m1
                   (ColocationGroup.mk group)).1 group'
                 = AppVersionState.Groups (put_group group (recomputed g) state1) !! group').
  { intros group'.
    rewrite (stored_group_ext m1) by apply startColocationGroup_appState.
    unfold m1. by rewrite stored_group_Update. }
  split.
  - rewrite Hm1. unfold put_group. simpl. by rewrite lookup_insert_eq.
  - intros group' Hne. rewrite Hm1. unfold put_group. simpl.
    rewrite lookup_insert_ne by done. by apply Hother.
Qed.

Lemma groups_ok_startComponent env m req :
  groups_ok m → groups_ok (startComponent env m req).1.
Proof.
  intros Hok. destruct (startComponent_spec env m req) as (g0 & Hr & Hp & Hg & Hother).
  intros group g Hs.
  destruct (decide (group = ComponentToStart.ColocationGroup req)) as [->|Hne].
  - rewrite Hg in Hs. injection Hs as <-.
    apply group_ok_recomputed. rewrite Hr, Hp. by apply group_ok_current.
  - rewrite Hother in Hs by done. eauto.
Qed.

Lemma groups_ok_step m m' : step m m' → groups_ok m → groups_ok m'.
Proof.
  destruct 1 as [env m req|env m req|env m req|env m group]; intros Hok.
  - by apply groups_ok_registerReplica.
  - intros group g. rewrite exportListener_stored. apply Hok.
  - by apply groups_ok_startComponent.
  - intros group' g.
    rewrite (stored_group_ext m) by apply startColocationGroup_appState. apply Hok.
Qed.

Lemma groups_ok_reachable m : reachable m → groups_ok m.
Proof.
  intros (ctx_done & app & id & locs & Hrtc).
  revert m Hrtc. apply (rtc_ind_r (R := step) (λ m, groups_ok m)).
  - intros group g Hs. unfold stored_group, RunManager in Hs. simpl in Hs.
    by rewrite lookup_empty in Hs.
  - intros m1 m2 _ Hstep IH. by eapply groups_ok_step.
Qed.

(** C9, as the code has it.  In every state the manager reaches, every
    stored group has as many pids as replicas, and its replicas are in
    sorted order.  [registerReplica] returns with a nil error and appends
    the address and the pid together or neither: for an address already
    in the group both lists stay as they are (up to the sorting of the
    replicas, which in a reachable state changes nothing); for a new
    address the pid goes to the end of the pids, while the replicas,
    with the new address, are sorted again.  The pids thus stay in
    registration order and the replicas do not. *)
Theorem registerReplica_lists :
  (∀ m, reachable m → ∀ group g, stored_group m group = Some g →
      length (ColocationGroupState.Replicas g)
        = length (ColocationGroupState.ReplicaPids g) ∧
      sort_Strings (ColocationGroupState.Replicas g) = ColocationGroupState.Replicas g) ∧
  (∀ env m req, ∃ m' g',
      let g := current_group m (ReplicaToRegister.Group req) in
      registerReplica env m req = (m', Ok ()) ∧
      stored_group m' (ReplicaToRegister.Group req) = Some g' ∧
      if found_replica (ReplicaToRegister.Address req) (ColocationGroupState.Replicas g)
      then
        ColocationGroupState.Replicas g' = sort_Strings (ColocationGroupState.Replicas g) ∧
        ColocationGroupState.ReplicaPids g' = ColocationGroupState.ReplicaPids g
      else
        ColocationGroupState.Replicas g'
          = sort_Strings (ColocationGroupState.Replicas g ++ [ReplicaToRegister.Address req]) ∧
        ColocationGroupState.ReplicaPids g'
          = ColocationGroupState.ReplicaPids g ++ [ReplicaToRegister.Pid req]) ∧
  (∀ env m req g,
      reachable m →
      stored_group m (ReplicaToRegister.Group req) = Some g →
      ReplicaToRegister.Address req ∈ ColocationGroupState.Replicas g →
      ∃ g',
        stored_group (registerReplica env m req).1 (ReplicaToRegister.Group req) = Some g' ∧
        ColocationGroupState.Replicas g' = ColocationGroupState.Replicas g ∧
        ColocationGroupState.ReplicaPids g' = ColocationGroupState.ReplicaPids g).
Proof.
  split; [|split].
  - intros m Hreach group g Hs. by apply (groups_ok_reachable m Hreach group).
  - intros env m req.
    destruct (registerReplica_spec env m req) as (m' & Hreg & Hg & _).
    eexists m', _. cbv zeta. split; [exact Hreg|]. split; [exact Hg|].
    unfold registered. by destruct (found_replica _ _).
  - intros env m req g Hreach Hs Hin.
    destruct (registerReplica_spec env m req) as (m' & Hreg & Hg & _).
    rewrite Hreg. cbn [fst]. eexists. split; [exact Hg|].
    unfold current_group, registered. rewrite Hs. cbn [from_option id].
    apply found_replica_elem_of in Hin. rewrite Hin.
    destruct (groups_ok_reachable m Hreach _ _ Hs) as [_ Hsorted].
    split; [exact Hsorted|done].
Qed.

Lemma m_ba_reachable : reachable m_ba.
Proof.
  exists false, "app", "dep", ["l0"; "l1"].
  eapply rtc_l; [apply (step_registerReplica env0 _ register_b)|].
  eapply rtc_l; [apply (step_registerReplica env0 _ register_a)|].
  apply rtc_refl.
Defined.

Lemma registerReplica_lists_witness :
  (∀ group g, stored_group m_ba group = Some g →
      length (ColocationGroupState.Replicas g)
        = length (ColocationGroupState.ReplicaPids g) ∧
      sort_Strings (ColocationGroupState.Replicas g) = ColocationGroupState.Replicas g) ∧
  (∃ g',
      stored_group (registerReplica env0 m_ba (ReplicaToRegister.mk "g" "a" 7)).1 "g"
        = Some g' ∧
      ColocationGroupState.Replicas g' = ["a"; "b"] ∧
      ColocationGroupState.ReplicaPids g' = [1; 2]).
Proof.
  destruct registerReplica_lists as (H1 & _ & H3).
  split.
  - exact (H1 m_ba m_ba_reachable).
  - apply (H3 env0 m_ba (ReplicaToRegister.mk "g" "a" 7)
             (ColocationGroupState.mk "g" ∅ ["a"; "b"] [1; 2] ∅)).
    + exact m_ba_reachable.
    + vm_compute. reflexivity.
    + vm_compute. apply list_elem_of_here.
Defined.

(** After "b" (pid 1) and "a" (pid 2) have registered, the first replica
    of the group is "a" and the first pid is 1, the pid of "b": the two
    lists are not aligned by index. *)
Lemma replicas_pids_not_aligned :
  ∃ g,
    stored_group m_ba "g" = Some g ∧
    ColocationGroupState.Replicas g = ["a"; "b"] ∧
    ColocationGroupState.ReplicaPids g = [1; 2] ∧
    ColocationGroupState.Replicas g !! 0%nat = Some "a" ∧
    ColocationGroupState.ReplicaPids g !! 0%nat = Some (ReplicaToRegister.Pid register_b) ∧
    ReplicaToRegister.Pid register_b ≠ ReplicaToRegister.Pid register_a.
Proof.
  exists (ColocationGroupState.mk "g" ∅ ["a"; "b"] [1; 2] ∅).
  split; [vm_compute; reflexivity|]. repeat split. discriminate.
Qed.

(** ** When the routing information is written *)

Lemma versions_sum_Permutation l1 l2 :
  l1 ≡ₚ l2 → versions_sum l1 = versions_sum l2.
Proof. induction 1; simpl; lia. Qed.

Lemma versions_sum_recomputed replicas (l : list Assignment.t) :
  Forall (λ a, 0 <= Assignment.Version a < MaxUint64) l →
  versions_sum ((λ a, default a (routingAlgo a replicas)) <$> l)
  = versions_sum l + Z.of_nat (length l).
Proof.
  induction 1 as [|a l Ha _ IH]; [done|].
  rewrite fmap_cons. cbn [versions_sum foldr length].
  fold (versions_sum ((λ a, default a (routingAlgo a replicas)) <$> l)).
  fold (versions_sum l). rewrite IH.
  destruct (routingAlgo_total a replicas) as [s ->]. simpl.
  unfold wrap64, MaxUint64 in *. rewrite Z.mod_small by lia. lia.
Qed.

(** C1, as the code has it.  [updateRoutingInfo] returns with a nil error;
    it leaves the store alone exactly when the new [RoutingInfo] equals the
    stored one in every field, the versions of the assignments included
    ([gproto.Equal]), and writes the new one, waking the readers,
    otherwise.  So [mayGenerateNewRoutingInfo] does not write for a group
    that has no assignment and whose sorted replicas are the stored ones;
    but for a group with an assignment whose stored routing information
    lists the assignments as they were before the recomputation, it always
    writes, since every assignment comes back with its version
    incremented. *)
Theorem updateRoutingInfo_write_policy env m g :
  (∀ info,
     (updateRoutingInfo env m g info).2 = Ok () ∧
     (stored_routing env m (ColocationGroupState.Name g) = info →
      (updateRoutingInfo env m g info).1 = m) ∧
     (stored_routing env m (ColocationGroupState.Name g) ≠ info →
      (updateRoutingInfo env m g info).1 =
        manager.set_routingState
          (versioned_map.Update (routingKey env (ColocationGroupState.Name g)) info) m ∧
      manager.routingState (updateRoutingInfo env m g info).1
        ≠ manager.routingState m)) ∧
  (ColocationGroupState.Assignments g = ∅ →
   stored_routing env m (ColocationGroupState.Name g)
     = RoutingInfo.mk "" (sort_Strings (ColocationGroupState.Replicas g)) [] →
   (mayGenerateNewRoutingInfo env m g).1.1 = m) ∧
  (ColocationGroupState.Assignments g ≠ ∅ →
   map_Forall (λ _ a, 0 <= Assignment.Version a < MaxUint64)
     (ColocationGroupState.Assignments g) →
   RoutingInfo.Assignments (stored_routing env m (ColocationGroupState.Name g))
     ≡ₚ (map_to_list (ColocationGroupState.Assignments g)).*2 →
   manager.routingState (mayGenerateNewRoutingInfo env m g).1.1
     ≠ manager.routingState m).
Proof.
  assert (Hupd : ∀ info,
     (updateRoutingInfo env m g info).2 = Ok () ∧
     (stored_routing env m (ColocationGroupState.Name g) = info →
      (updateRoutingInfo env m g info).1 = m) ∧
     (stored_routing env m (ColocationGroupState.Name g) ≠ info →
      (updateRoutingInfo env m g info).1 =
        manager.set_routingState
          (versioned_map.Update (routingKey env (ColocationGroupState.Name g)) info) m ∧
      manager.routingState (updateRoutingInfo env m g info).1
        ≠ manager.routingState m)).
  { intros info. rewrite updateRoutingInfo_spec. split; [done|]. split.
    - intros Heq. by rewrite decide_True.
    - intros Hne. rewrite decide_False by done. split; [done|].
      destruct m. apply Update_ne. }
  split; [exact Hupd|]. split.
  - intros Hempty Hstored. rewrite mayGenerateNewRoutingInfo_spec. cbn [fst].
    rewrite updateRoutingInfo_spec. cbn [fst]. rewrite decide_True; [done|].
    unfold recomputed, routing_info. simpl. rewrite Hstored, Hempty.
    rewrite fmap_empty, map_to_list_empty.
    pose proof (range_order_perm env []) as Hp.
    apply Permutation_nil_r in Hp. by rewrite Hp.
  - intros Hne Hver Hstored. rewrite mayGenerateNewRoutingInfo_spec. cbn [fst].
    rewrite updateRoutingInfo_spec. cbn [fst].
    change (ColocationGroupState.Name (recomputed g)) with (ColocationGroupState.Name g).
    rewrite decide_False; [destruct m; apply Update_ne|].
    intros Heq. apply (f_equal RoutingInfo.Assignments) in Heq.
    rewrite Heq in Hstored. unfold routing_info, recomputed in Hstored.
    simpl in Hstored.
    rewrite range_order_perm, map_to_list_fmap in Hstored.
    rewrite <- list_fmap_compose in Hstored.
    set (vals := (map_to_list (ColocationGroupState.Assignments g)).*2) in *.
    assert (Hsum : versions_sum
              ((λ a, default a (routingAlgo a (ColocationGroupState.Replicas g))) <$> vals)
            = versions_sum vals).
    { apply versions_sum_Permutation. etrans; [|exact Hstored].
      unfold vals. rewrite <- list_fmap_compose.
      erewrite list_fmap_ext; [reflexivity|]. by intros i [k a]. }
    rewrite versions_sum_recomputed in Hsum.
    + assert (vals ≠ []); [|destruct vals; simpl in *; [done|lia]].
      unfold vals. intros Hnil. apply fmap_nil_inv in Hnil.
      by apply map_to_list_empty_iff in Hnil.
    + unfold vals. apply Forall_fmap, Forall_forall. intros [k a] Hin.
      apply elem_of_map_to_list in Hin. apply (Hver k a Hin).
Qed.

Lemma updateRoutingInfo_write_policy_witness :
  (mayGenerateNewRoutingInfo env0 m0 (empty_group "g")).1.1 = m0.
Proof.
  destruct (updateRoutingInfo_write_policy env0 m0 (empty_group "g")) as (_ & H & _).
  apply H; reflexivity.
Defined.

(** The second registration of "a" changes neither the replicas nor the
    slices of the assignment, and the routing information is written to
    the store all the same: the version of its key moves on. *)
Lemma recompute_writes_unchanged_contents :
  RoutingInfo.Replicas (stored_routing env0 m_c_a_a "g")
    = RoutingInfo.Replicas (stored_routing env0 m_c_a "g") ∧
  Assignment.Slices <$> RoutingInfo.Assignments (stored_routing env0 m_c_a_a "g")
    = Assignment.Slices <$> RoutingInfo.Assignments (stored_routing env0 m_c_a "g") ∧
  RoutingInfo.Assignments (stored_routing env0 m_c_a "g") ≠ [] ∧
  manager.routingState m_c_a_a ≠ manager.routingState m_c_a ∧
  versioned_map.version_of (manager.routingState m_c_a_a !! routingKey env0 "g")
    ≠ versioned_map.version_of (manager.routingState m_c_a !! routingKey env0 "g").
Proof.
  split; [vm_compute; reflexivity|]. split; [vm_compute; reflexivity|].
  split; [vm_compute; discriminate|].
  assert (Hv : versioned_map.version_of (manager.routingState m_c_a_a !! routingKey env0 "g")
    ≠ versioned_map.version_of (manager.routingState m_c_a !! routingKey env0 "g")).
  { vm_compute. discriminate. }
  split; [|exact Hv].
  intros Heq. apply Hv. by rewrite Heq.
Qed.

(** * Further properties *)

(** ** Ownership of the slices *)

Lemma routingAlgo_owner cur (candidates : list string) :
  (2 <= length candidates)%nat →
  ∃ new,
    routingAlgo cur candidates = Some new ∧
    ∀ i s, Assignment.Slices new !! i = Some s →
      ∃ r, sort_Strings candidates !! (i `mod` length candidates)%nat = Some r ∧
           Assignment_Slice.Replicas s = [r].
Proof.
  intros H2.
  destruct (routingAlgo_many cur candidates H2) as (_ & _ & _ & Heq).
  destruct (assign_slices_spec (sort_Strings candidates) 0
              (sort_splits (level (Z.to_nat (Z.log2_up (Z.of_nat (length candidates)))))))
    as (slices & Hs & _ & Hrep).
  { rewrite sort_Strings_length. lia. }
  rewrite Hs in Heq. eexists. split; [exact Heq|].
  intros i s Hi. destruct (Hrep i s Hi) as (r & Hr & Hsr).
  rewrite sort_Strings_length in Hr. eauto.
Qed.

(** X1.  Every slice that [routingAlgo] returns has exactly one replica:
    slice [i] is owned by the candidate at index [i mod N] of the sorted
    candidates. *)
Theorem routingAlgo_round_robin cur candidates :
  candidates ≠ [] →
  ∃ new,
    routingAlgo cur candidates = Some new ∧
    ∀ i s, Assignment.Slices new !! i = Some s →
      ∃ r, sort_Strings candidates !! (i `mod` length candidates)%nat = Some r ∧
           Assignment_Slice.Replicas s = [r].
Proof.
  intros Hne.
  destruct (decide (2 <= length candidates)%nat) as [H2|H2];
    [by apply routingAlgo_owner|].
  destruct candidates as [|x [|y l]]; [done| |simpl in H2; lia].
  eexists. split; [reflexivity|].
  intros [|i] s Hi; simpl in Hi; [|done].
  injection Hi as <-. by exists x.
Qed.

Lemma routingAlgo_round_robin_witness :
  ∃ new,
    routingAlgo a0 ["c"; "a"; "b"] = Some new ∧
    ∀ i s, Assignment.Slices new !! i = Some s →
      ∃ r, sort_Strings ["c"; "a"; "b"] !! (i `mod` 3)%nat = Some r ∧
           Assignment_Slice.Replicas s = [r].
Proof. apply (routingAlgo_round_robin a0 ["c"; "a"; "b"]). discriminate. Defined.

Lemma nextPowerOfTwo_lt_double (x : Z) : 2 <= x → nextPowerOfTwo x < 2 * x.
Proof.
  intros Hx. rewrite nextPowerOfTwo_log2_up by lia.
  destruct (Z.log2_up_spec x ltac:(lia)) as [Hlo _].
  assert (0 < Z.log2_up x) by (apply Z.log2_up_lt_pow2; simpl; lia).
  replace (Z.log2_up x) with (Z.succ (Z.pred (Z.log2_up x))) at 1 by lia.
  rewrite Z.pow_succ_r by lia. lia.
Qed.

(** X2.  With [N >= 2] candidates (at most [MaxInt32]) there are at least
    [N] and fewer than [2 N] slices, so that every candidate owns one
    slice or two: the candidate at index [j] of the sorted candidates owns
    slice [j], and the only other slice that the round robin can give it
    is slice [j + N]. *)
Theorem routingAlgo_one_or_two_slices cur candidates :
  (2 <= length candidates)%nat → Z.of_nat (length candidates) <= MaxInt32 →
  ∃ new,
    routingAlgo cur candidates = Some new ∧
    (length candidates <= length (Assignment.Slices new) < 2 * length candidates)%nat ∧
    ∀ j r, sort_Strings candidates !! j = Some r →
      (∃ s, Assignment.Slices new !! j = Some s ∧ Assignment_Slice.Replicas s = [r]) ∧
      ∀ i, (i < length (Assignment.Slices new))%nat →
           (i `mod` length candidates)%nat = j → i = j ∨ i = (j + length candidates)%nat.
Proof.
  intros H2 Hmax.
  destruct (routingAlgo_chain cur candidates)
    as (new & splits & Heq & _ & _ & _ & _ & Hlen & Hcount & _);
    [intros ->; simpl in H2; lia|done|].
  destruct (decide (length candidates = 1%nat)); [lia|].
  destruct (nextPowerOfTwo_least (Z.of_nat (length candidates))) as [Hle _]; [lia|].
  pose proof (nextPowerOfTwo_lt_double (Z.of_nat (length candidates)) ltac:(lia)) as Hlt.
  assert (Hbounds : (length candidates <= length (Assignment.Slices new)
                     < 2 * length candidates)%nat) by lia.
  destruct (routingAlgo_owner cur candidates H2) as (new' & Heq' & Hown).
  rewrite Heq in Heq'. injection Heq' as <-.
  exists new. split; [done|]. split; [done|].
  intros j r Hj.
  assert (Hjlt : (j < length candidates)%nat).
  { apply lookup_lt_Some in Hj. by rewrite sort_Strings_length in Hj. }
  split.
  - destruct (lookup_lt_is_Some_2 (Assignment.Slices new) j) as [s Hs]; [lia|].
    exists s. split; [done|].
    destruct (Hown j s Hs) as (r' & Hr' & Hsr).
    rewrite Nat.mod_small in Hr' by done. congruence.
  - intros i Hi Hmod.
    destruct (decide (i < length candidates)%nat) as [Hsmall|Hbig].
    + left. by rewrite Nat.mod_small in Hmod.
    + right.
      assert (Hi' : i = (i - length candidates + 1 * length candidates)%nat) by lia.
      rewrite Hi', Nat.Div0.mod_add, Nat.mod_small in Hmod by lia. lia.
Qed.

Lemma routingAlgo_one_or_two_slices_witness :
  ∃ new,
    routingAlgo a0 ["c"; "a"; "b"] = Some new ∧
    (3 <= length (Assignment.Slices new) < 2 * 3)%nat ∧
    ∀ j r, sort_Strings ["c"; "a"; "b"] !! j = Some r →
      (∃ s, Assignment.Slices new !! j = Some s ∧ Assignment_Slice.Replicas s = [r]) ∧
      ∀ i, (i < length (Assignment.Slices new))%nat →
           (i `mod` 3)%nat = j → i = j ∨ i = (j + 3)%nat.
Proof.
  apply (routingAlgo_one_or_two_slices a0 ["c"; "a"; "b"]).
  - simpl. lia.
  - vm_compute. discriminate.
Defined.

(** X3.  The ranges that the splitting loop computes for [N >= 2]
    candidates (at most [MaxInt32]) are equally wide up to one key: the
    loop ends, and with [2^k] slices the end of every range is
    [2^(64-k)] or [2^(64-k) - 1] above its start. *)
Theorem routingAlgo_equal_widths (candidates : list string) :
  (2 <= length candidates)%nat → Z.of_nat (length candidates) <= MaxInt32 →
  ∃ raw k,
    1 <= k <= 31 ∧
    nextPowerOfTwo (Z.of_nat (length candidates)) = 2 ^ k ∧
    split_loop (Z.to_nat (nextPowerOfTwo (Z.of_nat (length candidates))))
      (nextPowerOfTwo (Z.of_nat (length candidates))) [(0, MaxUint64)] = Some raw ∧
    Forall (λ c, c.2 - c.1 = 2 ^ (64 - k) ∨ c.2 - c.1 = 2 ^ (64 - k) - 1)
      (sort_splits raw).
Proof.
  intros H2 Hmax.
  destruct (routingAlgo_many a0 candidates H2) as (Hk & Hnext & Hloop & _).
  set (k := Z.to_nat (Z.log2_up (Z.of_nat (length candidates)))) in *.
  assert (Hk31 : Z.log2_up (Z.of_nat (length candidates)) <= 31).
  { apply Z.log2_up_le_pow2; unfold MaxInt32 in Hmax; lia. }
  exists (level k), (Z.of_nat k).
  split; [lia|]. split; [done|]. split; [done|].
  destruct (level_chain k) as [Hchain Hw]; [lia|].
  rewrite (sort_splits_chain _ _ _ Hchain).
  eapply Forall_impl; [exact Hw|]. by intros c (_ & _ & ?).
Qed.

Lemma routingAlgo_equal_widths_witness :
  ∃ raw k,
    1 <= k <= 31 ∧
    nextPowerOfTwo (Z.of_nat 3) = 2 ^ k ∧
    split_loop (Z.to_nat (nextPowerOfTwo (Z.of_nat 3)))
      (nextPowerOfTwo (Z.of_nat 3)) [(0, MaxUint64)] = Some raw ∧
    Forall (λ c, c.2 - c.1 = 2 ^ (64 - k) ∨ c.2 - c.1 = 2 ^ (64 - k) - 1)
      (sort_splits raw).
Proof.
  apply (routingAlgo_equal_widths ["c"; "a"; "b"]).
  - simpl. lia.
  - vm_compute. discriminate.
Defined.

(** ** The handlers, step by step *)

Lemma loadAppState_listeners env m state v :
  loadAppState env m "" = Ok (state, v) →
  AppVersionState.Listeners state = stored_listeners m ∧ v = app_version m.
Proof.
  unfold loadAppState. rewrite Read_no_version. intros [= <- <-].
  unfold stored_listeners. split; [|done].
  by destruct (manager.appState m !! appVersionStateKey).
Qed.

Lemma findOrAddGroup_listeners state group :
  AppVersionState.Listeners (findOrAddGroup state group).1
  = AppVersionState.Listeners state.
Proof. unfold findOrAddGroup. by case_match. Qed.

Lemma registerReplica_eq env m req :
  ∃ state,
    AppVersionState.Listeners state = stored_listeners m ∧
    (∀ group', group' ≠ ReplicaToRegister.Group req →
       AppVersionState.Groups state !! group' = stored_group m group') ∧
    registerReplica env m req =
      (committed env m (ReplicaToRegister.Group req)
         (registered req (current_group m (ReplicaToRegister.Group req))) state,
       Ok ()).
Proof.
  unfold registerReplica.
  destruct (loadAppState_no_version env m) as (state & Hload & _).
  rewrite Hload.
  destruct (loadAppState_listeners env m _ _ Hload) as [Hl _].
  destruct (findOrAddGroup_spec env m (ReplicaToRegister.Group req) state _ Hload)
    as (Hg & _ & Hother).
  pose proof (findOrAddGroup_listeners state (ReplicaToRegister.Group req)) as Hl'.
  destruct (findOrAddGroup state _) as [state1 g]. simpl in Hg, Hl', Hother. subst g.
  fold (registered req (current_group m (ReplicaToRegister.Group req))).
  rewrite mayGenerateNewRoutingInfo_spec.
  exists state1. split; [congruence|]. split; [exact Hother|done].
Qed.

Lemma startComponent_eq env m req :
  ∃ state,
    AppVersionState.Listeners state = stored_listeners m ∧
    (∀ group', group' ≠ ComponentToStart.ColocationGroup req →
       AppVersionState.Groups state !! group' = stored_group m group') ∧
    startComponent env m req =
      startColocationGroup env
        (committed env m (ComponentToStart.ColocationGroup req)
           (component_added m req
              (current_group m (ComponentToStart.ColocationGroup req))) state)
        (ColocationGroup.mk (ComponentToStart.ColocationGroup req)).
Proof.
  unfold startComponent.
  destruct (loadAppState_no_version env m) as (state & Hload & _).
  rewrite Hload.
  destruct (loadAppState_listeners env m _ _ Hload) as [Hl _].
  destruct (findOrAddGroup_spec env m (ComponentToStart.ColocationGroup req) state _ Hload)
    as (Hg & _ & Hother).
  pose proof (findOrAddGroup_listeners state (ComponentToStart.ColocationGroup req)) as Hl'.
  destruct (findOrAddGroup state _) as [state1 g]. simpl in Hg, Hl', Hother. subst g.
  fold (component_added m req (current_group m (ComponentToStart.ColocationGroup req))).
  rewrite mayGenerateNewRoutingInfo_spec.
  exists state1. split; [congruence|]. split; [exact Hother|done].
Qed.

Lemma updateRoutingInfo_control env m g info :
  control_state (updateRoutingInfo env m g info).1 = control_state m.
Proof. rewrite updateRoutingInfo_spec. by case_decide. Qed.

Lemma committed_control env m group g state :
  control_state (committed env m group g state) = control_state m.
Proof.
  unfold committed.
  rewrite <- (updateRoutingInfo_control env m (recomputed g) (routing_info env (recomputed g))).
  by destruct (updateRoutingInfo _ _ _ _).1.
Qed.

Lemma committed_listeners env m group g state :
  stored_listeners (committed env m group g state) = AppVersionState.Listeners state.
Proof.
  unfold committed, stored_listeners, versioned_map.Update.
  destruct (updateRoutingInfo _ _ _ _).1. simpl. by rewrite lookup_insert_eq.
Qed.

Lemma committed_routingState env m group g state :
  manager.routingState (committed env m group g state)
  = manager.routingState
      (updateRoutingInfo env m (recomputed g) (routing_info env (recomputed g))).1.
Proof. unfold committed. by destruct (updateRoutingInfo _ _ _ _).1. Qed.

Lemma committed_app_version env m group g state :
  app_version (committed env m group g state) ≠ app_version m.
Proof.
  unfold committed, app_version, versioned_map.version_of, versioned_map.Update.
  rewrite updateRoutingInfo_spec. cbn [fst].
  intros Heq. apply (inj pretty) in Heq. revert Heq.
  case_decide; destruct m; simpl; rewrite lookup_insert_eq; simpl; lia.
Qed.

Lemma start_locations_frame env m group replicaId locs :
  let m' := (start_locations env m group replicaId locs).1 in
  manager.locations m' = manager.locations m ∧
  manager.started m' = manager.started m ∧
  manager.proxies m' = manager.proxies m ∧
  manager.routingState m' = manager.routingState m.
Proof.
  revert m replicaId. induction locs as [|loc locs IH]; intros m replicaId; [done|].
  cbn [start_locations]. destruct (startBabysitter _ _ _ _); [by destruct m|].
  destruct (IH (manager.set_babysitters
                  (λ l, l ++ [(loc, ColocationGroup.Name group, replicaId)]) m)
              (S replicaId)) as (H1 & H2 & H3 & H4).
  cbv zeta. rewrite H1, H2, H3, H4. by destruct m.
Qed.

Lemma startColocationGroup_frame env m group :
  let m' := (startColocationGroup env m group).1 in
  manager.locations m' = manager.locations m ∧
  manager.proxies m' = manager.proxies m ∧
  manager.routingState m' = manager.routingState m ∧
  manager.appState m' = manager.appState m.
Proof.
  cbv zeta. split; [|split; [|split]]; [..|apply startColocationGroup_appState].
  all: unfold startColocationGroup; case_decide; [done|].
  all: destruct (start_locations_frame env m group 0 (manager.locations m))
         as (H1 & H2 & H3 & H4).
  all: destruct (start_locations _ _ _ _ _) as [m' [err|]]; simpl in *; try done.
  all: by destruct m'.
Qed.

Lemma stored_listeners_ext m m' :
  manager.appState m' = manager.appState m →
  stored_listeners m' = stored_listeners m.
Proof. unfold stored_listeners. by intros ->. Qed.

Lemma registerReplica_listeners env m req :
  stored_listeners (registerReplica env m req).1 = stored_listeners m.
Proof.
  destruct (registerReplica_eq env m req) as (state & Hl & _ & ->).
  cbn [fst]. by rewrite committed_listeners.
Qed.

Lemma startComponent_listeners env m req :
  stored_listeners (startComponent env m req).1 = stored_listeners m.
Proof.
  destruct (startComponent_eq env m req) as (state & Hl & _ & ->).
  erewrite stored_listeners_ext; [|apply startColocationGroup_appState].
  by rewrite committed_listeners.
Qed.

(** X4.  [registerReplica] works on the application state and on the
    routing information only: it starts no babysitter, marks no group as
    started and leaves the proxies and the locations alone, and the
    recorded listeners stay as they are. *)
Theorem registerReplica_frame env m req :
  control_state (registerReplica env m req).1 = control_state m ∧
  stored_listeners (registerReplica env m req).1 = stored_listeners m.
Proof.
  split; [|apply registerReplica_listeners].
  destruct (registerReplica_eq env m req) as (state & _ & _ & ->).
  apply committed_control.
Qed.

(** ** What holds of every stored group *)

Lemma stored_group_committed env m group g state group' :
  stored_group (committed env m group g state) group' =
    if decide (group' = group) then Some (recomputed g)
    else AppVersionState.Groups state !! group'.
Proof.
  unfold committed. rewrite stored_group_Update. unfold put_group. simpl.
  case_decide as Hd.
  - subst. by rewrite lookup_insert_eq.
  - by rewrite lookup_insert_ne.
Qed.

Lemma assignments_current_recomputed g : assignments_current (recomputed g).
Proof.
  intros component a cur new Hlk Hnew. unfold recomputed in Hlk, Hnew.
  simpl in Hlk, Hnew. rewrite lookup_fmap in Hlk.
  destruct (ColocationGroupState.Assignments g !! component) as [a'|]; [|done].
  simpl in Hlk. injection Hlk as <-.
  destruct (routingAlgo_total a' (ColocationGroupState.Replicas g)) as [s Hs].
  rewrite Hs. simpl.
  apply (routingAlgo_slices_perm _ _ _ _ _ _ (sort_Strings_perm _) Hnew Hs).
Qed.

Lemma group_wf_recomputed group g :
  group_wf group g → group_wf group (recomputed g).
Proof.
  intros [Hname Hnd]. split; [done|].
  unfold recomputed. simpl. by rewrite sort_Strings_perm.
Qed.

Lemma group_wf_current m group :
  groups_wf m → group_wf group (current_group m group).
Proof.
  intros Hwf. unfold current_group.
  destruct (stored_group m group) as [g|] eqn:Hg; simpl; [eauto|].
  split; [done|constructor].
Qed.

Lemma group_wf_registered req g :
  group_wf (ReplicaToRegister.Group req) g →
  group_wf (ReplicaToRegister.Group req) (registered req g).
Proof.
  intros [Hname Hnd]. unfold registered.
  destruct (found_replica _ _) eqn:Hf; [done|]. split; [done|]. simpl.
  apply NoDup_app. split; [done|]. split; [|apply NoDup_singleton].
  intros x Hx ->%list_elem_of_singleton.
  apply found_replica_elem_of in Hx. congruence.
Qed.

Lemma group_wf_component_added m req g :
  group_wf (ComponentToStart.ColocationGroup req) g →
  group_wf (ComponentToStart.ColocationGroup req) (component_added m req g).
Proof.
  intros Hwf. unfold component_added.
  destruct (ComponentToStart.IsRouted req); [|done]. by case_match.
Qed.

Lemma groups_current_wf m : groups_current m → groups_wf m.
Proof. intros H group g Hs. by apply H. Qed.

Lemma groups_current_committed env m group g state :
  groups_current m → group_wf group g →
  (∀ group', group' ≠ group →
     AppVersionState.Groups state !! group' = stored_group m group') →
  groups_current (committed env m group g state).
Proof.
  intros Hcur Hwf Hother group' g' Hs. rewrite stored_group_committed in Hs.
  case_decide as Hd.
  - subst. injection Hs as <-.
    split; [by apply group_wf_recomputed|apply assignments_current_recomputed].
  - rewrite Hother in Hs by done. by apply Hcur.
Qed.

Lemma groups_current_step m m' : step m m' → groups_current m → groups_current m'.
Proof.
  destruct 1 as [env m req|env m req|env m req|env m group]; intros Hcur.
  - destruct (registerReplica_eq env m req) as (state & _ & Hother & ->).
    apply groups_current_committed; [done| |done].
    apply group_wf_registered, group_wf_current, groups_current_wf, Hcur.
  - intros group g. rewrite exportListener_stored. apply Hcur.
  - destruct (startComponent_eq env m req) as (state & _ & Hother & ->).
    intros group g.
    rewrite (stored_group_ext (committed env m _ _ state))
      by apply startColocationGroup_appState.
    apply groups_current_committed; [done| |done].
    apply group_wf_component_added, group_wf_current, groups_current_wf, Hcur.
  - intros group' g.
    rewrite (stored_group_ext m) by apply startColocationGroup_appState. apply Hcur.
Qed.

Lemma groups_current_reachable m : reachable m → groups_current m.
Proof.
  intros (ctx_done & app & id & locs & Hrtc).
  revert m Hrtc. apply (rtc_ind_r (R := step) (λ m, groups_current m)).
  - intros group g Hs. unfold stored_group, RunManager in Hs. simpl in Hs.
    by rewrite lookup_empty in Hs.
  - intros m1 m2 _ Hstep IH. by eapply groups_current_step.
Qed.

(** X5.  In every state the manager reaches, every group is stored under
    its own name and lists no replica address twice. *)
Theorem reachable_replicas_NoDup m group g :
  reachable m → stored_group m group = Some g →
  ColocationGroupState.Name g = group ∧ NoDup (ColocationGroupState.Replicas g).
Proof. intros Hreach Hs. by apply (groups_current_reachable m Hreach group g Hs). Qed.

(** X6.  In every state the manager reaches, the slices of every stored
    assignment are those that [routingAlgo] computes for the replicas of
    its group as they are stored: no assignment is left behind by a
    change of the replicas. *)
Theorem reachable_assignments_current m group g component a :
  reachable m → stored_group m group = Some g →
  ColocationGroupState.Assignments g !! component = Some a →
  ∃ new,
    routingAlgo a (ColocationGroupState.Replicas g) = Some new ∧
    Assignment.Slices new = Assignment.Slices a.
Proof.
  intros Hreach Hs Ha.
  destruct (groups_current_reachable m Hreach group g Hs) as [_ Hcur].
  destruct (routingAlgo_total a (ColocationGroupState.Replicas g)) as [s Hnew].
  eexists. split; [exact Hnew|]. by eapply Hcur.
Qed.

Lemma m_c_a_reachable : reachable m_c_a.
Proof.
  exists false, "app", "dep", ["l0"; "l1"].
  eapply rtc_l; [apply (step_startComponent env0 _ (ComponentToStart.mk "g" "c" true))|].
  eapply rtc_l; [apply (step_registerReplica env0 _ (ReplicaToRegister.mk "g" "a" 1))|].
  apply rtc_refl.
Defined.

Lemma reachable_replicas_NoDup_witness :
  ColocationGroupState.Name (ColocationGroupState.mk "g" ∅ ["a"; "b"] [1; 2] ∅) = "g" ∧
  NoDup ["a"; "b"].
Proof.
  apply (reachable_replicas_NoDup m_ba "g"
           (ColocationGroupState.mk "g" ∅ ["a"; "b"] [1; 2] ∅)).
  - exact m_ba_reachable.
  - vm_compute. reflexivity.
Defined.

Lemma reachable_assignments_current_witness :
  ∃ new,
    routingAlgo
      (Assignment.mk "app" "dep" "c" 2 [Assignment_Slice.mk 0 ["a"]]) ["a"] = Some new ∧
    Assignment.Slices new = [Assignment_Slice.mk 0 ["a"]].
Proof.
  apply (reachable_assignments_current m_c_a "g"
           (ColocationGroupState.mk "g" {["c" := true]} ["a"] [1]
              {["c" := Assignment.mk "app" "dep" "c" 2 [Assignment_Slice.mk 0 ["a"]]]})
           "c").
  - exact m_c_a_reachable.
  - vm_compute. reflexivity.
  - vm_compute. reflexivity.
Defined.

(** ** Listeners and proxies *)

Lemma exportListener_cases env m req :
  let listener := ExportListenerRequest.Listener req in
  let m' := (exportListener env m req).1 in
  stored_listeners m' = stored_listeners m ++ [listener] ∧
  manager.locations m' = manager.locations m ∧
  manager.started m' = manager.started m ∧
  manager.babysitters m' = manager.babysitters m ∧
  manager.routingState m' = manager.routingState m ∧
  match manager.proxies m !! Listener.Name listener with
  | Some p =>
      manager.proxies m' =
        <[Listener.Name listener :=
            proxyInfo.mk (Proxy.AddBackend (Listener.Addr listener) (proxyInfo.proxy p))
              (proxyInfo.addr p)]> (manager.proxies m) ∧
      (exportListener env m req).2 = Ok (ExportListenerReply.mk (proxyInfo.addr p) "")
  | None =>
      match net_Listen env (ExportListenerRequest.LocalAddress req) with
      | inl addr =>
          manager.proxies m' =
            <[Listener.Name listener :=
                proxyInfo.mk (Proxy.mk [Listener.Addr listener]) addr]>
              (manager.proxies m) ∧
          (exportListener env m req).2 = Ok (ExportListenerReply.mk addr "")
      | inr err => manager.proxies m' = manager.proxies m
      end
  end.
Proof.
  cbv zeta. unfold exportListener.
  destruct (loadAppState_no_version env m) as (state & Hload & _).
  rewrite Hload. destruct (loadAppState_listeners env m _ _ Hload) as [Hl _].
  cbn [manager.proxies manager.set_appState].
  assert (Hlist : ∀ f : manager.t → manager.t,
            (∀ x, manager.appState (f x) = manager.appState x) →
            stored_listeners
              (f (manager.set_appState
                    (versioned_map.Update appVersionStateKey
                       (AppVersionState.set_Listeners
                          (λ l, l ++ [ExportListenerRequest.Listener req]) state)) m))
            = stored_listeners m ++ [ExportListenerRequest.Listener req]).
  { intros f Hf. unfold stored_listeners at 1. rewrite Hf.
    unfold versioned_map.Update. destruct m. simpl.
    rewrite lookup_insert_eq. simpl. by rewrite Hl. }
  destruct (manager.proxies m !! _) as [p|].
  { cbn [fst snd]. split; [apply (Hlist (manager.set_proxies _)); by intros []|].
    by destruct m. }
  destruct (net_Listen env _) as [addr|err]; [|destruct (error.is_EADDRINUSE err)];
    cbn [fst snd].
  - split; [apply (Hlist (manager.set_proxies _)); by intros []|]. by destruct m.
  - split; [apply (Hlist id); done|]. by destruct m.
  - split; [apply (Hlist id); done|]. by destruct m.
Qed.

(** X7.  [exportListener] records the listener in the application state on
    every call, whether a proxy exists, is created, or the bind fails; the
    same listener exported twice is recorded twice. *)
Theorem exportListener_records_listener env env' m req :
  stored_listeners (exportListener env m req).1
    = stored_listeners m ++ [ExportListenerRequest.Listener req] ∧
  stored_listeners (exportListener env' (exportListener env m req).1 req).1
    = stored_listeners m ++ [ExportListenerRequest.Listener req;
                             ExportListenerRequest.Listener req].
Proof.
  destruct (exportListener_cases env m req) as (H1 & _).
  destruct (exportListener_cases env' (exportListener env m req).1 req) as (H2 & _).
  split; [exact H1|]. rewrite H2, H1. by rewrite <- app_assoc.
Qed.

(** X8.  Once a listener has been exported and its proxy bound, a later
    export under the same listener name, from any local address and
    whatever a bind would answer, returns the address of that proxy and
    adds the new backend after the first; no second proxy is bound. *)
Theorem exportListener_same_proxy env env' m req req' addr :
  manager.proxies m !! Listener.Name (ExportListenerRequest.Listener req) = None →
  net_Listen env (ExportListenerRequest.LocalAddress req) = inl addr →
  Listener.Name (ExportListenerRequest.Listener req')
    = Listener.Name (ExportListenerRequest.Listener req) →
  (exportListener env m req).2 = Ok (ExportListenerReply.mk addr "") ∧
  (exportListener env' (exportListener env m req).1 req').2
    = Ok (ExportListenerReply.mk addr "") ∧
  manager.proxies (exportListener env' (exportListener env m req).1 req').1
    !! Listener.Name (ExportListenerRequest.Listener req)
  = Some (proxyInfo.mk
            (Proxy.mk [Listener.Addr (ExportListenerRequest.Listener req);
                       Listener.Addr (ExportListenerRequest.Listener req')]) addr).
Proof.
  intros Hnone Hlisten Hname.
  destruct (exportListener_cases env m req) as (_ & _ & _ & _ & _ & H1).
  rewrite Hnone, Hlisten in H1. destruct H1 as [Hp1 Hr1].
  destruct (exportListener_cases env' (exportListener env m req).1 req')
    as (_ & _ & _ & _ & _ & H2).
  rewrite Hname, Hp1, lookup_insert_eq in H2. destruct H2 as [Hp2 Hr2].
  split; [exact Hr1|]. split; [exact Hr2|].
  rewrite Hp2. by rewrite lookup_insert_eq.
Qed.

Lemma exportListener_same_proxy_witness :
  (exportListener env0 m0 export_L).2 = Ok (ExportListenerReply.mk ":80" "") ∧
  (exportListener (id_env (λ _, inr in_use) (λ _ _ _, None))
     (exportListener env0 m0 export_L).1
     (ExportListenerRequest.mk (Listener.mk "L" "worker2") ":81")).2
    = Ok (ExportListenerReply.mk ":80" "") ∧
  manager.proxies
    (exportListener (id_env (λ _, inr in_use) (λ _ _ _, None))
       (exportListener env0 m0 export_L).1
       (ExportListenerRequest.mk (Listener.mk "L" "worker2") ":81")).1 !! "L"
  = Some (proxyInfo.mk (Proxy.mk ["worker1"; "worker2"]) ":80").
Proof.
  apply (exportListener_same_proxy env0 (id_env (λ _, inr in_use) (λ _ _ _, None))
           m0 export_L (ExportListenerRequest.mk (Listener.mk "L" "worker2") ":81") ":80");
    reflexivity.
Defined.

Lemma proxies_ok_same m m' :
  manager.proxies m' = manager.proxies m →
  stored_listeners m' = stored_listeners m →
  proxies_ok m → proxies_ok m'.
Proof. unfold proxies_ok. intros -> ->. done. Qed.

Lemma proxies_ok_step m m' : step m m' → proxies_ok m → proxies_ok m'.
Proof.
  destruct 1 as [env m req|env m req|env m req|env m group]; intros Hok.
  - apply (proxies_ok_same m); [|apply registerReplica_listeners|done].
    destruct (registerReplica_eq env m req) as (state & _ & _ & ->).
    pose proof (committed_control env m (ReplicaToRegister.Group req)
                  (registered req (current_group m (ReplicaToRegister.Group req)))
                  state) as Hc.
    by injection Hc.
  - destruct (exportListener_cases env m req) as (Hl & _ & _ & _ & _ & Hp).
    intros name p Hlk. rewrite Hl.
    destruct (manager.proxies m !! Listener.Name (ExportListenerRequest.Listener req))
      as [p0|] eqn:Hp0.
    + destruct Hp as [Hp _]. rewrite Hp in Hlk.
      destruct (decide (name = Listener.Name (ExportListenerRequest.Listener req)))
        as [->|Hne].
      * rewrite lookup_insert_eq in Hlk. injection Hlk as <-. simpl.
        destruct (Hok _ _ Hp0) as [_ Hin]. split; [by destruct (Proxy.backends _)|].
        intros backend [Hb| ->%list_elem_of_singleton]%elem_of_app.
        -- apply elem_of_app. left. by apply Hin.
        -- apply elem_of_app. right. apply list_elem_of_singleton.
           by destruct (ExportListenerRequest.Listener req).
      * rewrite lookup_insert_ne in Hlk by done.
        destruct (Hok _ _ Hlk) as [Hne' Hin]. split; [done|].
        intros backend Hb. apply elem_of_app. left. by apply Hin.
    + destruct (net_Listen env _) as [addr|err].
      * destruct Hp as [Hp _]. rewrite Hp in Hlk.
        destruct (decide (name = Listener.Name (ExportListenerRequest.Listener req)))
          as [->|Hne].
        -- rewrite lookup_insert_eq in Hlk. injection Hlk as <-. simpl.
           split; [done|]. intros backend ->%list_elem_of_singleton.
           apply elem_of_app. right. apply list_elem_of_singleton.
           by destruct (ExportListenerRequest.Listener req).
        -- rewrite lookup_insert_ne in Hlk by done.
           destruct (Hok _ _ Hlk) as [Hne' Hin]. split; [done|].
           intros backend Hb. apply elem_of_app. left. by apply Hin.
      * rewrite Hp in Hlk. destruct (Hok _ _ Hlk) as [Hne' Hin]. split; [done|].
        intros backend Hb. apply elem_of_app. left. by apply Hin.
  - apply (proxies_ok_same m); [| |done].
    + destruct (startComponent_eq env m req) as (state & _ & _ & ->).
      destruct (startColocationGroup_frame env (committed env m
                  (ComponentToStart.ColocationGroup req)
                  (component_added m req (current_group m (ComponentToStart.ColocationGroup req)))
                  state) (ColocationGroup.mk (ComponentToStart.ColocationGroup req)))
        as (_ & Hp & _).
      rewrite Hp.
      pose proof (committed_control env m (ComponentToStart.ColocationGroup req)
                    (component_added m req (current_group m (ComponentToStart.ColocationGroup req)))
                    state) as Hc.
      by injection Hc.
    + apply startComponent_listeners.
  - destruct (startColocationGroup_frame env m group) as (_ & Hp & _ & Ha).
    apply (proxies_ok_same m); [done| |done]. by apply stored_listeners_ext.
Qed.

Lemma proxies_ok_reachable m : reachable m → proxies_ok m.
Proof.
  intros (ctx_done & app & id & locs & Hrtc).
  revert m Hrtc. apply (rtc_ind_r (R := step) (λ m, proxies_ok m)).
  - intros name p Hlk. unfold RunManager in Hlk. simpl in Hlk.
    by rewrite lookup_empty in Hlk.
  - intros m1 m2 _ Hstep IH. by eapply proxies_ok_step.
Qed.

Lemma director_some k p url :
  Proxy.backends p ≠ [] →
  ∃ host, director k p url = Some (URL.mk "http" host) ∧ host ∈ Proxy.backends p.
Proof.
  intros Hne. unfold director.
  assert (Hlen : (0 < length (Proxy.backends p))%nat).
  { destruct (Proxy.backends p); [done|simpl; lia]. }
  rewrite decide_False by lia.
  destruct (lookup_lt_is_Some_2 (Proxy.backends p)
              (k `mod` length (Proxy.backends p))%nat) as [host Hhost].
  { apply Nat.mod_upper_bound. lia. }
  exists host. rewrite Hhost. split; [done|].
  by eapply list_elem_of_lookup_2.
Qed.

(** X9.  [director] leaves a request alone when the proxy has no backend;
    otherwise it sets the scheme to http and the host to one of the
    backends, never to an address that was not added, and every backend
    can be drawn. *)
Theorem director_picks_backend p url :
  (Proxy.backends p = [] → ∀ k, director k p url = Some url) ∧
  (Proxy.backends p ≠ [] →
   (∀ k, ∃ host, director k p url = Some (URL.mk "http" host) ∧
                 host ∈ Proxy.backends p) ∧
   (∀ host, host ∈ Proxy.backends p →
            ∃ k, director k p url = Some (URL.mk "http" host))).
Proof.
  split.
  - unfold director. intros -> k. done.
  - intros Hne. split; [intros k; by apply director_some|].
    intros host Hin. apply list_elem_of_lookup_1 in Hin as [k Hk].
    assert (Hlt : (k < length (Proxy.backends p))%nat) by (by eapply lookup_lt_Some).
    exists k. unfold director. rewrite decide_False by lia.
    rewrite Nat.mod_small by done. by rewrite Hk.
Qed.

Lemma director_picks_backend_witness :
  (∀ k, director k (Proxy.mk []) (URL.mk "https" "example") = Some (URL.mk "https" "example")) ∧
  (∀ k, ∃ host,
     director k (Proxy.mk ["worker1"; "worker2"]) (URL.mk "https" "example")
       = Some (URL.mk "http" host) ∧
     host ∈ ["worker1"; "worker2"]).
Proof.
  split.
  - apply (director_picks_backend (Proxy.mk []) (URL.mk "https" "example")). reflexivity.
  - apply (director_picks_backend (Proxy.mk ["worker1"; "worker2"])
             (URL.mk "https" "example")). discriminate.
Defined.

(** X10.  In every state the manager reaches, a request routed through a
    registered proxy is always sent on, and to the address of a listener
    that was exported under the name of the proxy. *)
Theorem reachable_proxy_routes m name p k url :
  reachable m → manager.proxies m !! name = Some p →
  ∃ host,
    director k (proxyInfo.proxy p) url = Some (URL.mk "http" host) ∧
    Listener.mk name host ∈ stored_listeners m.
Proof.
  intros Hreach Hlk.
  destruct (proxies_ok_reachable m Hreach name p Hlk) as [Hne Hin].
  destruct (director_some k (proxyInfo.proxy p) url Hne) as (host & Hhost & Hb).
  exists host. split; [done|]. by apply Hin.
Qed.

Lemma m_L_reachable : reachable m_L.
Proof.
  exists false, "app", "dep", ["l0"; "l1"].
  eapply rtc_l; [apply (step_exportListener env0 _ export_L)|]. apply rtc_refl.
Defined.

Lemma reachable_proxy_routes_witness :
  ∃ host,
    director 5 (Proxy.mk ["worker1"]) (URL.mk "https" "example")
      = Some (URL.mk "http" host) ∧
    Listener.mk "L" host ∈ stored_listeners m_L.
Proof.
  apply (reachable_proxy_routes m_L "L" (proxyInfo.mk (Proxy.mk ["worker1"]) ":80")).
  - exact m_L_reachable.
  - vm_compute. reflexivity.
Defined.

(** ** Reading the routing information after a registration *)

Lemma updateRoutingInfo_stored env m g info :
  stored_routing env (updateRoutingInfo env m g info).1 (ColocationGroupState.Name g) = info.
Proof.
  rewrite updateRoutingInfo_spec. cbn [fst]. case_decide as Hd; [done|].
  unfold stored_routing, versioned_map.Update. destruct m. simpl.
  by rewrite lookup_insert_eq.
Qed.

Lemma getRoutingInfo_returns env m req :
  GetRoutingInfo.Version req = "" ∨
    GetRoutingInfo.Version req ≠ routing_version env m (GetRoutingInfo.Group req) →
  getRoutingInfo env m req =
    Ok (Some (RoutingInfo.set_Version (routing_version env m (GetRoutingInfo.Group req))
                (stored_routing env m (GetRoutingInfo.Group req)))).
Proof.
  intros Hv. unfold getRoutingInfo, loadRoutingState, versioned_map.Read.
  fold (routing_version env m (GetRoutingInfo.Group req)).
  rewrite decide_True by done. unfold stored_routing.
  by destruct (manager.routingState m !! _).
Qed.

Lemma registered_elem_of req g :
  ReplicaToRegister.Address req
    ∈ ColocationGroupState.Replicas (recomputed (registered req g)).
Proof.
  unfold recomputed. simpl. rewrite sort_Strings_perm. unfold registered.
  destruct (found_replica _ _) eqn:Hf; simpl.
  - by apply found_replica_elem_of.
  - apply elem_of_app. right. by apply list_elem_of_singleton.
Qed.

Lemma registerReplica_routing env m req :
  reachable m →
  let group := ReplicaToRegister.Group req in
  let g' := recomputed (registered req (current_group m group)) in
  stored_group (registerReplica env m req).1 group = Some g' ∧
  manager.routingState (registerReplica env m req).1
    = manager.routingState (updateRoutingInfo env m g' (routing_info env g')).1 ∧
  ColocationGroupState.Name g' = group ∧
  stored_routing env (registerReplica env m req).1 group = routing_info env g'.
Proof.
  intros Hreach group g'.
  destruct (registerReplica_eq env m req) as (state & _ & _ & Heq).
  rewrite Heq. cbn [fst].
  assert (Hname : ColocationGroupState.Name g' = group).
  { apply (group_wf_recomputed group), group_wf_registered, group_wf_current,
      groups_current_wf, groups_current_reachable, Hreach. }
  split; [rewrite stored_group_committed; by rewrite decide_True|].
  split; [apply committed_routingState|]. split; [done|].
  pose proof (updateRoutingInfo_stored env m g' (routing_info env g')) as Hs.
  rewrite Hname in Hs. unfold stored_routing in *.
  by rewrite committed_routingState.
Qed.

(** X11.  In a state the manager reaches, the routing information read
    right after [registerReplica] (with no version, so at once) is that of
    the group as it is now stored: its replicas, the registered address
    among them, and its assignments, under the version of the routing
    key. *)
Theorem registerReplica_then_getRoutingInfo env m req :
  reachable m →
  ∃ g' info,
    stored_group (registerReplica env m req).1 (ReplicaToRegister.Group req) = Some g' ∧
    getRoutingInfo env (registerReplica env m req).1
      (GetRoutingInfo.mk (ReplicaToRegister.Group req) "") = Ok (Some info) ∧
    RoutingInfo.Version info
      = routing_version env (registerReplica env m req).1 (ReplicaToRegister.Group req) ∧
    RoutingInfo.Replicas info = ColocationGroupState.Replicas g' ∧
    ReplicaToRegister.Address req ∈ RoutingInfo.Replicas info ∧
    RoutingInfo.Assignments info
      ≡ₚ (map_to_list (ColocationGroupState.Assignments g')).*2.
Proof.
  intros Hreach.
  destruct (registerReplica_routing env m req Hreach) as (Hg & _ & _ & Hstored).
  eexists _, _. split; [exact Hg|].
  rewrite getRoutingInfo_returns by (by left).
  cbn [GetRoutingInfo.Group]. rewrite Hstored.
  split; [done|]. split; [done|]. split; [done|]. split.
  - apply registered_elem_of.
  - simpl. by rewrite range_order_perm.
Qed.

Lemma registerReplica_then_getRoutingInfo_witness :
  ∃ g' info,
    stored_group (registerReplica env0 m_ba (ReplicaToRegister.mk "g" "c" 3)).1 "g"
      = Some g' ∧
    getRoutingInfo env0 (registerReplica env0 m_ba (ReplicaToRegister.mk "g" "c" 3)).1
      (GetRoutingInfo.mk "g" "") = Ok (Some info) ∧
    RoutingInfo.Version info
      = routing_version env0
          (registerReplica env0 m_ba (ReplicaToRegister.mk "g" "c" 3)).1 "g" ∧
    RoutingInfo.Replicas info = ColocationGroupState.Replicas g' ∧
    "c" ∈ RoutingInfo.Replicas info ∧
    RoutingInfo.Assignments info
      ≡ₚ (map_to_list (ColocationGroupState.Assignments g')).*2.
Proof.
  apply (registerReplica_then_getRoutingInfo env0 m_ba (ReplicaToRegister.mk "g" "c" 3)).
  exact m_ba_reachable.
Defined.

(** X12.  In a state the manager reaches, registering an address that the
    published routing information of the group does not list moves the
    version of the routing key on: a reader that holds the version from
    before is answered at once, with a replica list that has the new
    address. *)
Theorem registerReplica_wakes_readers env m req :
  reachable m →
  ReplicaToRegister.Address req
    ∉ RoutingInfo.Replicas (stored_routing env m (ReplicaToRegister.Group req)) →
  routing_version env (registerReplica env m req).1 (ReplicaToRegister.Group req)
    ≠ routing_version env m (ReplicaToRegister.Group req) ∧
  ∃ info,
    getRoutingInfo env (registerReplica env m req).1
      (GetRoutingInfo.mk (ReplicaToRegister.Group req)
         (routing_version env m (ReplicaToRegister.Group req))) = Ok (Some info) ∧
    ReplicaToRegister.Address req ∈ RoutingInfo.Replicas info.
Proof.
  intros Hreach Hnotin.
  destruct (registerReplica_routing env m req Hreach) as (_ & Hrs & Hname & Hstored).
  set (g' := recomputed (registered req (current_group m (ReplicaToRegister.Group req)))) in *.
  assert (Hver : routing_version env (registerReplica env m req).1
                   (ReplicaToRegister.Group req)
                 ≠ routing_version env m (ReplicaToRegister.Group req)).
  { unfold routing_version. rewrite Hrs, updateRoutingInfo_spec. cbn [fst].
    rewrite Hname. rewrite decide_False.
    - unfold versioned_map.version_of, versioned_map.Update. destruct m. simpl.
      rewrite lookup_insert_eq. intros Heq. apply (inj pretty) in Heq.
      simpl in Heq. lia.
    - intros Heq. apply Hnotin. rewrite Heq. simpl. apply registered_elem_of. }
  split; [exact Hver|].
  eexists. rewrite getRoutingInfo_returns; [|right; cbn; by apply not_eq_sym].
  split; [done|]. cbn [GetRoutingInfo.Group]. rewrite Hstored. simpl.
  apply registered_elem_of.
Qed.

Lemma registerReplica_wakes_readers_witness :
  routing_version env0 (registerReplica env0 m_ba (ReplicaToRegister.mk "g" "c" 3)).1 "g"
    ≠ routing_version env0 m_ba "g" ∧
  ∃ info,
    getRoutingInfo env0 (registerReplica env0 m_ba (ReplicaToRegister.mk "g" "c" 3)).1
      (GetRoutingInfo.mk "g" (routing_version env0 m_ba "g")) = Ok (Some info) ∧
    "c" ∈ RoutingInfo.Replicas info.
Proof.
  apply (registerReplica_wakes_readers env0 m_ba (ReplicaToRegister.mk "g" "c" 3)).
  - exact m_ba_reachable.
  - vm_compute. intros Hin.
    apply elem_of_cons in Hin as [Hin|Hin]; [discriminate|].
    apply list_elem_of_singleton in Hin. discriminate.
Defined.

(** ** Starting the babysitters of a group *)

Lemma committed_fields env m group g state :
  manager.locations (committed env m group g state) = manager.locations m ∧
  manager.started (committed env m group g state) = manager.started m ∧
  manager.babysitters (committed env m group g state) = manager.babysitters m.
Proof.
  pose proof (committed_control env m group g state) as Hc.
  unfold control_state in Hc. by injection Hc.
Qed.

Lemma startColocationGroup_all env m group :
  manager.started m !! ColocationGroup.Name group = None →
  (∀ i loc, manager.locations m !! i = Some loc →
            startBabysitter env loc group i = None) →
  startColocationGroup env m group =
    (manager.set_started (insert (ColocationGroup.Name group) true)
       (manager.set_babysitters (λ l, l ++ launches group 0 (manager.locations m)) m),
     Ok ()).
Proof.
  intros Hnone Hok. unfold startColocationGroup.
  rewrite decide_False by (rewrite Hnone; by intros [? ?]).
  by rewrite start_locations_all.
Qed.

Lemma startColocationGroup_started env m group :
  is_Some (manager.started m !! ColocationGroup.Name group) →
  startColocationGroup env m group = (m, Ok ()).
Proof. intros Hs. unfold startColocationGroup. by rewrite decide_True. Qed.

(** X13.  The babysitters of a group are started once.  When
    [startComponent] finds the group not started and every launch
    succeeds, it launches one babysitter per location, in order, with
    replica ids from 0, and marks the group as started; any later
    [startComponent] for the same group, whatever the component,
    returns with a nil error and launches nothing. *)
Theorem startComponent_starts_once env env' m req req' :
  manager.started m !! ComponentToStart.ColocationGroup req = None →
  (∀ i loc, manager.locations m !! i = Some loc →
     startBabysitter env loc
       (ColocationGroup.mk (ComponentToStart.ColocationGroup req)) i = None) →
  ComponentToStart.ColocationGroup req' = ComponentToStart.ColocationGroup req →
  (startComponent env m req).2 = Ok () ∧
  manager.babysitters (startComponent env m req).1 =
    manager.babysitters m ++
    launches (ColocationGroup.mk (ComponentToStart.ColocationGroup req)) 0
      (manager.locations m) ∧
  manager.started (startComponent env m req).1
    = <[ComponentToStart.ColocationGroup req := true]> (manager.started m) ∧
  (startComponent env' (startComponent env m req).1 req').2 = Ok () ∧
  manager.babysitters (startComponent env' (startComponent env m req).1 req').1
    = manager.babysitters (startComponent env m req).1 ∧
  manager.started (startComponent env' (startComponent env m req).1 req').1
    = manager.started (startComponent env m req).1.
Proof.
  intros Hnone Hok Hgroup.
  destruct (startComponent_eq env m req) as (state & _ & _ & Heq).
  set (mc := committed env m _ _ state) in Heq.
  destruct (committed_fields env m (ComponentToStart.ColocationGroup req)
              (component_added m req (current_group m (ComponentToStart.ColocationGroup req)))
              state) as (Hloc & Hst & Hbs).
  fold mc in Hloc, Hst, Hbs. clearbody mc.
  rewrite startColocationGroup_all in Heq; [|by rewrite Hst|by rewrite Hloc].
  rewrite Heq. cbn [fst snd].
  assert (Hb1 : manager.babysitters
            (manager.set_started (insert (ComponentToStart.ColocationGroup req) true)
               (manager.set_babysitters
                  (λ l, l ++ launches (ColocationGroup.mk (ComponentToStart.ColocationGroup req))
                                0 (manager.locations mc)) mc))
          = manager.babysitters m ++
            launches (ColocationGroup.mk (ComponentToStart.ColocationGroup req)) 0
              (manager.locations m)).
  { simpl. by rewrite Hbs, Hloc. }
  assert (Hs1 : manager.started
            (manager.set_started (insert (ComponentToStart.ColocationGroup req) true)
               (manager.set_babysitters
                  (λ l, l ++ launches (ColocationGroup.mk (ComponentToStart.ColocationGroup req))
                                0 (manager.locations mc)) mc))
          = <[ComponentToStart.ColocationGroup req := true]> (manager.started m)).
  { simpl. by rewrite Hst. }
  split; [done|]. split; [exact Hb1|]. split; [exact Hs1|].
  set (m1 := manager.set_started _ _) in *.
  destruct (startComponent_eq env' m1 req') as (state' & _ & _ & Heq').
  destruct (committed_fields env' m1 (ComponentToStart.ColocationGroup req')
              (component_added m1 req' (current_group m1 (ComponentToStart.ColocationGroup req')))
              state') as (_ & Hst' & Hbs').
  rewrite startColocationGroup_started in Heq'.
  - rewrite Heq'. cbn [fst snd]. by rewrite Hst', Hbs'.
  - cbn [ColocationGroup.Name]. rewrite Hst', Hs1, Hgroup, lookup_insert_eq. eauto.
Qed.

Lemma startComponent_starts_once_witness :
  (startComponent env0 m0 (ComponentToStart.mk "g" "c" true)).2 = Ok () ∧
  manager.babysitters (startComponent env0 m0 (ComponentToStart.mk "g" "c" true)).1
    = [("l0", "g", 0%nat); ("l1", "g", 1%nat)] ∧
  manager.babysitters
    (startComponent env_l0_down
       (startComponent env0 m0 (ComponentToStart.mk "g" "c" true)).1
       (ComponentToStart.mk "g" "d" false)).1
    = manager.babysitters (startComponent env0 m0 (ComponentToStart.mk "g" "c" true)).1.
Proof.
  destruct (startComponent_starts_once env0 env_l0_down m0
              (ComponentToStart.mk "g" "c" true) (ComponentToStart.mk "g" "d" false))
    as (H1 & H2 & _ & _ & H5 & _); [reflexivity|reflexivity|reflexivity|].
  split; [exact H1|]. split; [exact H2|exact H5].
Defined.

(** X14.  After a launch has failed at a location, the group is still not
    started, and the next [startColocationGroup] starts over from the
    first location: the locations before the failing one, whose
    babysitters were already started, are launched a second time.  The
    launches are those up to and with the failing location, then those
    of all the locations. *)
Theorem startColocationGroup_retry_relaunches env env' m group i loc err :
  manager.started m !! ColocationGroup.Name group = None →
  manager.locations m !! i = Some loc →
  startBabysitter env loc group i = Some err →
  (∀ j loc', (j < i)%nat → manager.locations m !! j = Some loc' →
             startBabysitter env loc' group j = None) →
  (∀ j loc', manager.locations m !! j = Some loc' →
             startBabysitter env' loc' group j = None) →
  (startColocationGroup env m group).2 = Err (launch_error group loc err) ∧
  manager.started (startColocationGroup env m group).1 = manager.started m ∧
  (startColocationGroup env' (startColocationGroup env m group).1 group).2 = Ok () ∧
  manager.babysitters (startColocationGroup env' (startColocationGroup env m group).1 group).1
    = manager.babysitters m
      ++ launches group 0 (take (S i) (manager.locations m))
      ++ launches group 0 (manager.locations m).
Proof.
  intros Hnone Hi Herr Hbefore Hok.
  assert (Heq : startColocationGroup env m group =
            (manager.set_babysitters
               (λ l, l ++ launches group 0 (take (S i) (manager.locations m))) m,
             Err (launch_error group loc err))).
  { unfold startColocationGroup.
    rewrite decide_False by (rewrite Hnone; by intros [? ?]).
    by rewrite (start_locations_fail env m group 0 _ i loc err). }
  rewrite Heq. cbn [fst snd]. split; [done|]. split; [by destruct m|].
  rewrite startColocationGroup_all; [|by destruct m|by destruct m].
  split; [done|]. destruct m. simpl. by rewrite <- app_assoc.
Qed.

Lemma startColocationGroup_retry_relaunches_witness :
  manager.babysitters
    (startColocationGroup env0
       (startColocationGroup
          (id_env (λ a, inl a)
             (λ loc _ _, if bool_decide (loc = "l1") then Some no_route else None))
          m0 (ColocationGroup.mk "g")).1
       (ColocationGroup.mk "g")).1
  = [("l0", "g", 0%nat); ("l1", "g", 1%nat); ("l0", "g", 0%nat); ("l1", "g", 1%nat)].
Proof.
  destruct (startColocationGroup_retry_relaunches
              (id_env (λ a, inl a)
                 (λ loc _ _, if bool_decide (loc = "l1") then Some no_route else None))
              env0 m0 (ColocationGroup.mk "g") 1 "l1" no_route)
    as (_ & _ & _ & H); [reflexivity|reflexivity|reflexivity| |reflexivity|exact H].
  intros [|j] loc' Hj Hlk; [|lia]. simpl in Hlk. by injection Hlk as <-.
Defined.

(** ** The components of a group *)

Lemma loadAppState_returns env m version :
  version = "" ∨ version ≠ app_version m →
  loadAppState env m version =
    Ok (default (AppVersionState.mk (manager.dep_App_Name m) (manager.dep_Id m)
                   (now env) [] ∅)
          (versioned_map.value <$> manager.appState m !! appVersionStateKey),
        app_version m).
Proof.
  intros Hv. unfold loadAppState, versioned_map.Read.
  fold (app_version m). by rewrite decide_True.
Qed.

Lemma getComponentsToStart_returns env order m req :
  GetComponentsToStart.Version req = "" ∨
    GetComponentsToStart.Version req ≠ app_version m →
  getComponentsToStart env order m req =
    Ok (ComponentsToStart.mk (app_version m)
          (keys_order order
             (map_to_list (ColocationGroupState.Components
                (current_group m (GetComponentsToStart.Group req)))).*1)).
Proof.
  intros Hv. unfold getComponentsToStart.
  rewrite (loadAppState_returns env m _ Hv).
  destruct (loadAppState_no_version env m) as (state & Hload & Hstate).
  destruct (findOrAddGroup_spec env m (GetComponentsToStart.Group req) state _ Hload)
    as (Hg & _ & _).
  rewrite <- Hstate. destruct (findOrAddGroup state _) as [state1 g].
  simpl in Hg. by subst g.
Qed.

(** X15.  For a group that is not in the application state,
    [getComponentsToStart] with no version returns at once, with a nil
    error, an empty list of components and the current version. *)
Theorem getComponentsToStart_unknown_group env order m group :
  stored_group m group = None →
  getComponentsToStart env order m (GetComponentsToStart.mk group "")
    = Ok (ComponentsToStart.mk (app_version m) []).
Proof.
  intros Hnone. rewrite getComponentsToStart_returns by (by left).
  unfold current_group. cbn [GetComponentsToStart.Group]. rewrite Hnone. simpl.
  rewrite map_to_list_empty. simpl.
  pose proof (keys_order_perm order []) as Hp.
  apply Permutation_nil_r in Hp. by rewrite Hp.
Qed.

Lemma getComponentsToStart_unknown_group_witness :
  getComponentsToStart env0 sorted_keys m_ba (GetComponentsToStart.mk "h" "")
    = Ok (ComponentsToStart.mk (app_version m_ba) []).
Proof.
  apply (getComponentsToStart_unknown_group env0 sorted_keys m_ba "h").
  vm_compute. reflexivity.
Defined.

Lemma startComponent_stored env m req :
  stored_group (startComponent env m req).1 (ComponentToStart.ColocationGroup req)
    = Some (recomputed (component_added m req
              (current_group m (ComponentToStart.ColocationGroup req)))) ∧
  app_version (startComponent env m req).1 ≠ app_version m.
Proof.
  destruct (startComponent_eq env m req) as (state & _ & _ & ->).
  split.
  - erewrite stored_group_ext; [|apply startColocationGroup_appState].
    rewrite stored_group_committed. by rewrite decide_True.
  - unfold app_version at 1. rewrite startColocationGroup_appState.
    apply committed_app_version.
Qed.

Lemma component_added_Components m req g :
  ColocationGroupState.Components (component_added m req g)
    !! ComponentToStart.Component req = Some (ComponentToStart.IsRouted req).
Proof.
  unfold component_added. destruct (ComponentToStart.IsRouted req).
  - case_match; simpl; by rewrite lookup_insert_eq.
  - simpl. by rewrite lookup_insert_eq.
Qed.

(** X16.  [startComponent] records the component in the application state
    before it starts any babysitter, so whatever the launches answer: a
    worker that polls [getComponentsToStart] for the group with the
    version it held before is answered at once, with a new version and a
    list that has the component. *)
Theorem startComponent_then_getComponentsToStart env env' order m req :
  ∃ reply,
    getComponentsToStart env' order (startComponent env m req).1
      (GetComponentsToStart.mk (ComponentToStart.ColocationGroup req) (app_version m))
      = Ok reply ∧
    ComponentToStart.Component req ∈ ComponentsToStart.Components reply ∧
    ComponentsToStart.Version reply = app_version (startComponent env m req).1 ∧
    ComponentsToStart.Version reply ≠ app_version m.
Proof.
  destruct (startComponent_stored env m req) as [Hg Hv].
  eexists. rewrite getComponentsToStart_returns; [|right; cbn; by apply not_eq_sym].
  split; [done|]. cbn [ComponentsToStart.Components ComponentsToStart.Version].
  split; [|split; [done|exact Hv]].
  rewrite keys_order_perm. cbn [GetComponentsToStart.Group].
  unfold current_group. rewrite Hg. cbn [from_option id].
  apply list_elem_of_fmap.
  exists (ComponentToStart.Component req, ComponentToStart.IsRouted req).
  split; [done|]. apply elem_of_map_to_list.
  unfold recomputed. simpl. apply component_added_Components.
Qed.

(** X17.  The group that [startComponent] stores, whatever the launches
    answer: the component is recorded with its routed flag; a routed
    component has an assignment, which is the result of [routingAlgo] on
    the assignment it had (the initial one, of version 0 and without
    slices, if it had none) and the replicas of the group; an unrouted
    component gets none, the components with an assignment stay the
    same. *)
Theorem startComponent_assignment env m req :
  let group := ComponentToStart.ColocationGroup req in
  let component := ComponentToStart.Component req in
  let g := current_group m group in
  ∃ g',
    stored_group (startComponent env m req).1 group = Some g' ∧
    ColocationGroupState.Components g' !! component
      = Some (ComponentToStart.IsRouted req) ∧
    (ComponentToStart.IsRouted req = true →
     ∃ a,
       ColocationGroupState.Assignments g' !! component = Some a ∧
       routingAlgo
         (default (initial_assignment m component)
            (ColocationGroupState.Assignments g !! component))
         (ColocationGroupState.Replicas g) = Some a) ∧
    (ComponentToStart.IsRouted req = false →
     ∀ c, is_Some (ColocationGroupState.Assignments g' !! c)
          ↔ is_Some (ColocationGroupState.Assignments g !! c)).
Proof.
  intros group component g.
  destruct (startComponent_stored env m req) as [Hg _].
  eexists. split; [exact Hg|]. split; [apply component_added_Components|].
  fold group g. unfold recomputed, component_added. fold component.
  destruct (ComponentToStart.IsRouted req); split; try done.
  - intros _. simpl.
    destruct (ColocationGroupState.Assignments g !! component) as [a|] eqn:Ha; simpl.
    + rewrite lookup_fmap, Ha. simpl.
      destruct (routingAlgo_total a (ColocationGroupState.Replicas g)) as [s ->]. eauto.
    + rewrite lookup_fmap, lookup_insert_eq. simpl.
      destruct (routingAlgo_total (initial_assignment m component)
                  (ColocationGroupState.Replicas g)) as [s Hs].
      unfold initial_assignment in Hs. rewrite Hs. eexists. split; [done|exact Hs].
  - intros _ c. simpl. rewrite lookup_fmap. by rewrite fmap_is_Some.
Qed.
